(** * User management service: shallow embedding and verified properties

    The development has two parts.  Part I embeds the program: the
    [fakeAuth] middleware of [Rishab node/server.js], the documentation
    object, 404 handler and CORS origin callback of
    [testing_repo21/server.js], and the token / OTP / session components
    that the server only refers to through [./user_routes].  Part II states
    and proves the properties. *)

From Stdlib Require Import ZArith NArith String Ascii List Lia Bool.
From stdpp Require Import base option list gmap strings.

Local Open Scope Z_scope.

#[local] Set Warnings "-clear-no-such-hyp".

(* ===================================================================== *)
(** * Part I: the program *)
(* ===================================================================== *)

(** ** JavaScript values shared by both servers *)

Module Js.

(** A header or variable that may be missing: [None] is [undefined]. *)
Definition truthy (v : option string) : bool :=
  match v with
  | None => false
  | Some EmptyString => false
  | Some (String _ _) => true
  end.

(** [v !== lit] for a possibly undefined string [v] and a string literal. *)
Definition strict_neq (v : option string) (lit : string) : bool :=
  match v with
  | None => true
  | Some s => negb (String.eqb s lit)
  end.

End Js.

(** ** [Rishab node/server.js] *)

Module FakeAuth.

(** [req.headers]: Node lower-cases header names and gives each present
    header a string value. *)
Record request := { headers : gmap string string }.

(** The one-field body [{ error: ... }] passed to [res.json]. *)
Record error_body := { error : string }.

(** What the middleware does with the request: it either sends a response
    ([res.status(s).json(b)]) or hands over to [next()]. *)
Inductive outcome :=
| Respond (status : Z) (body : error_body)
| Next.

(** [function fakeAuth(req, res, next)]. *)
Definition fakeAuth (req : request) : outcome :=
  let token := headers req !! "authorization"%string in
  if negb (Js.truthy token) then
    Respond 401 {| error := "No token provided" |}
  else if Js.strict_neq token "FAKE_TOKEN_123" then
    Respond 403 {| error := "Invalid token" |}
  else
    Next.

End FakeAuth.

(** ** [testing_repo21/server.js] *)

Module Server.

Local Open Scope string_scope.

(** The part of [@shared/config] the file reads.  [port_user] is the text
    that the template literal [`${PORT}`] produces. *)
Record config := {
  routes_user : string;
  port_user : string;
  rateLimit_windowMs : Z;
  rateLimit_max : Z
}.

(** *** The documentation object served at [/docs] *)

Record param_doc := {
  p_type : string;
  p_required : bool;
  p_description : string;
  p_value : option string
}.

Record endpoint_doc := {
  url : string;
  method : string;
  description : string;
  parameters : list (string * param_doc);
  response : list (string * string)
}.

Record authentication_doc := {
  auth_type : string;
  features : list string
}.

Record rate_limit_doc := {
  windowMs : Z;
  maxRequests : Z
}.

Record api_documentation := {
  service : string;
  version : string;
  status : string;
  timestamp : string;
  endpoints : list (string * endpoint_doc);
  authentication : authentication_doc;
  rateLimit : rate_limit_doc;
  security : list (string * string)
}.

(** [`http://localhost:${PORT}`] *)
Definition base_url (cfg : config) : string :=
  "http://localhost:" +:+ port_user cfg.

(** [`${base_url}/${config.routes.user}${suffix}`] *)
Definition endpoint_url (cfg : config) (suffix : string) : string :=
  base_url cfg +:+ "/" +:+ routes_user cfg +:+ suffix.

(** A parameter entry [{ type, required, description }] and the two that
    recur. *)
Definition param (ty : string) (req : bool) (descr : string) : param_doc :=
  {| p_type := ty; p_required := req; p_description := descr;
     p_value := None |}.

Definition email_param : string * param_doc :=
  ("email", param "string" true "User account identifier").

Definition otp_param : string * param_doc :=
  ("otp", param "string" true "6-digit OTP received via email").

(** The object built by the [/docs] handler; [now_iso] is
    [new Date().toISOString()]. *)
Definition apiDocumentation (cfg : config) (now_iso : string)
  : api_documentation :=
  {| service := "User Management Service";
     version := "1.0.0";
     status := "active";
     timestamp := now_iso;
     endpoints :=
       [ ("health",
          {| url := endpoint_url cfg "/health";
             method := "GET";
             description := "Service health check";
             parameters := [];
             response := [] |});
         ("getProfile",
          {| url := endpoint_url cfg "/profile";
             method := "GET";
             description := "Get user profile information";
             parameters := [ email_param ];
             response := [] |});
         ("refreshToken",
          {| url := endpoint_url cfg "/refresh-token";
             method := "POST";
             description := "Refresh access token using refresh token";
             parameters :=
               [ ("refreshToken",
                  param "string" true "Valid refresh token") ];
             response := [] |});
         ("resendOTP",
          {| url := endpoint_url cfg "/resend_otp";
             method := "POST";
             description := "Resend OTP.";
             parameters :=
               [ email_param;
                 ("event",
                  {| p_type := "string";
                     p_required := true;
                     p_description :=
                       "event required to identify the action";
                     p_value := Some
                       "'Reset Password' to resend otp at reset password OR 'Register' to resend otp at register time"
                  |}) ];
             response := [] |});
         ("registerNewUsers",
          {| url := endpoint_url cfg "/register";
             method := "POST";
             description := "Register New Users";
             parameters :=
               [ email_param;
                 ("phone", param "string" true "User identifier");
                 ("companyName", param "string" false "User identifier");
                 ("password", param "string" true "User account password");
                 ("first_name", param "string" true "User first name");
                 ("last_name", param "string" true "User last name") ];
             response := [] |});
         ("verifyAccount",
          {| url := endpoint_url cfg "/register_auth";
             method := "POST";
             description :=
               "Account verification for newly registered users.";
             parameters := [ email_param; otp_param ];
             response := [] |});
         ("login",
          {| url := endpoint_url cfg "/login";
             method := "POST";
             description :=
               "Login user using their credentials. Returns access and refresh tokens.";
             parameters :=
               [ email_param;
                 ("password", param "string" true "User account password") ];
             response :=
               [ ("accessToken", "JWT access token (15min expiry)");
                 ("refreshToken", "JWT refresh token (7 days expiry)");
                 ("tokenType", "Bearer");
                 ("expiresIn", "15m");
                 ("refreshExpiresIn", "7d");
                 ("user", "User profile object") ] |});
         ("forgotPassword",
          {| url := endpoint_url cfg "/reset_pass_user_auth";
             method := "POST";
             description :=
               "Email verification to the user before resetting the password (sends OTP).";
             parameters := [ email_param ];
             response := [] |});
         ("verifyResetPasswordOTP",
          {| url := endpoint_url cfg "/reset_pass_otp_auth";
             method := "POST";
             description :=
               "OTP verification before resetting the password.";
             parameters := [ email_param; otp_param ];
             response := [] |});
         ("updateNewPassword",
          {| url := endpoint_url cfg "/reset_password";
             method := "POST";
             description :=
               "After OTP verification, update the new password.";
             parameters :=
               [ email_param;
                 ("newPassword",
                  param "string" true "New password for the account") ];
             response := [] |});
         ("logout",
          {| url := endpoint_url cfg "/logout";
             method := "POST";
             description :=
               "Invalidate tokens in the database and clear authentication cookies.";
             parameters := [ email_param ];
             response := [] |}) ];
     authentication :=
       {| auth_type := "JWT Tokens + Cookies";
          features :=
            [ "Access Token (15min expiry)";
              "Refresh Token (7 days expiry)";
              "HTTP-only Cookies";
              "Automatic token refresh" ] |};
     rateLimit :=
       {| windowMs := rateLimit_windowMs cfg;
          maxRequests := rateLimit_max cfg |};
     security :=
       [ ("cors", "enabled");
         ("helmet", "enabled");
         ("rateLimit", "enabled");
         ("inputValidation", "enabled");
         ("httpOnlyCookies", "enabled") ] |}.

(** [obj[key]] on an object kept as its list of properties. *)
Fixpoint prop {A : Type} (key : string) (obj : list (string * A))
  : option A :=
  match obj with
  | [] => None
  | (k, v) :: rest => if String.eqb k key then Some v else prop key rest
  end.

(** *** The 404 handler *)

Record request := {
  requestId : option string;
  req_method : string;
  originalUrl : string;
  ip : string
}.

Record not_found_body := {
  nf_error : string;
  nf_message : string;
  nf_requestId : option string;
  availableEndpoints : list string
}.

Record log_entry := {
  log_level : string;
  log_message : string;
  log_meta : list (string * option string)
}.

Record not_found_response := {
  nf_status : Z;
  nf_body : not_found_body;
  nf_console : list string;
  nf_logged : list log_entry
}.

(** [debugRegister(type, path)]: the line written by [console.log]. *)
Definition debugRegister (type path : string) : string :=
  "[DEBUG] Registering " +:+ type +:+ " on path: " +:+ path.

(** [`/${config.routes.user}${suffix}`] *)
Definition route_path (cfg : config) (suffix : string) : string :=
  "/" +:+ routes_user cfg +:+ suffix.

(** [app.use('*', (req, res) => ...)]: the status, the JSON body and the
    warning logged. *)
Definition notFoundHandler (cfg : config) (req : request)
  : not_found_response :=
  {| nf_status := 404;
     nf_body :=
       {| nf_error := "Route not found";
          nf_message := "The requested endpoint does not exist";
          nf_requestId := requestId req;
          availableEndpoints :=
            [ route_path cfg "/docs";
              route_path cfg "/health";
              route_path cfg "/profile";
              route_path cfg "/refresh-token";
              route_path cfg "/register";
              route_path cfg "/register_auth";
              route_path cfg "/login";
              route_path cfg "/reset_pass_user_auth";
              route_path cfg "/reset_pass_otp_auth";
              route_path cfg "/reset_password";
              route_path cfg "/resend_otp";
              route_path cfg "/logout" ] |};
     nf_console := [ debugRegister "middleware" "* (404 handler)" ];
     nf_logged :=
       [ {| log_level := "warn";
            log_message := "404 - Route not found";
            log_meta :=
              [ ("requestId", requestId req);
                ("method", Some (req_method req));
                ("path", Some (originalUrl req));
                ("ip", Some (ip req)) ] |} ] |}.

(** The path suffixes of the routes the handler lists, in its order. *)
Definition listed_suffixes : list string :=
  [ "/docs"; "/health"; "/profile"; "/refresh-token"; "/register";
    "/register_auth"; "/login"; "/reset_pass_user_auth";
    "/reset_pass_otp_auth"; "/reset_password"; "/resend_otp"; "/logout" ].

(** *** The CORS origin callback

    [trim] depends on which characters JavaScript counts as white space,
    so the strings of this part are sequences of UTF-16 code units. *)

Definition ustring := list N.

(** A source literal (ASCII) as code units. *)
Fixpoint lit (s : string) : ustring :=
  match s with
  | EmptyString => []
  | String c s' => N_of_ascii c :: lit s'
  end.

(** ECMAScript WhiteSpace and LineTerminator code points, the ones
    [String.prototype.trim] strips. *)
Definition is_white_space (c : N) : bool :=
  ((9 <=? c) && (c <=? 13) || (c =? 32) || (c =? 160) || (c =? 5760)
   || (8192 <=? c) && (c <=? 8202) || (c =? 8232) || (c =? 8233)
   || (c =? 8239) || (c =? 8287) || (c =? 12288) || (c =? 65279))%N.

(** [s.trim()]: white space dropped at both ends. *)
Fixpoint trimStart (s : ustring) : ustring :=
  match s with
  | [] => []
  | c :: s' => if is_white_space c then trimStart s' else s
  end.

Definition trimEnd (s : ustring) : ustring := rev (trimStart (rev s)).

Definition trim (s : ustring) : ustring := trimEnd (trimStart s).

(** [s.split(sep)] for a one-character separator. *)
Fixpoint split (sep : N) (s : ustring) : list ustring :=
  match s with
  | [] => [[]]
  | c :: s' =>
      if (c =? sep)%N then [] :: split sep s'
      else match split sep s' with
           | [] => [[c]]
           | piece :: pieces => (c :: piece) :: pieces
           end
  end.

(** The code unit of [','] *)
Definition comma : N := 44.

(** Truthiness of a possibly undefined string: [undefined] and the empty
    string are falsy. *)
Definition truthy (v : option ustring) : bool :=
  match v with
  | None => false
  | Some [] => false
  | Some (_ :: _) => true
  end.

(** The array literal used when [ALLOWED_ORIGINS] is not in force. *)
Definition defaultOrigins : list ustring :=
  map lit
    [ "http://localhost:4007";
      "http://localhost:4040";
      "http://localhost:8080";
      "http://localhost:3000";
      "http://localhost:3001";
      "http://localhost:4015";
      "https://oms-ims.onrender.com" ].

(** The string held by a value already known to be truthy. *)
Definition str (v : option ustring) : ustring := default [] v.

(** [process.env.ALLOWED_ORIGINS ? ....split(',').map(s => s.trim()) : [...]] *)
Definition allowedOrigins (env : gmap string ustring) : list ustring :=
  if truthy (env !! "ALLOWED_ORIGINS") then
    map trim (split comma (str (env !! "ALLOWED_ORIGINS")))
  else
    defaultOrigins.

(** [allowedOrigins.includes(origin)] *)
Definition includes (l : list ustring) (o : ustring) : bool :=
  bool_decide (o ∈ l).

(** The two ways the callback is invoked: [callback(null, true)] and
    [callback(new Error(msg))]. *)
Inductive cors_result :=
| Allowed
| Failed (message : string).

(** [logger.warn('CORS blocked request', { origin })] *)
Record cors_log := { cors_warning : string; cors_origin : ustring }.

(** [corsOptions.origin]: the callback invocation and what was logged. *)
Definition corsOrigin (env : gmap string ustring) (origin : option ustring)
  : cors_result * list cors_log :=
  if negb (truthy origin) then (Allowed, [])
  else if includes (allowedOrigins env) (str origin) then (Allowed, [])
  else (Failed "Not allowed by CORS",
        [ {| cors_warning := "CORS blocked request";
             cors_origin := str origin |} ]).

End Server.

(** ** The endpoint contract and the allow-list, as the specification
    words them *)

Module Contract.

Import Server.
Local Open Scope string_scope.

(** One endpoint of a contract: method, path, required and optional
    request fields. *)
Record entry := {
  verb : string;
  path : string;
  required : list string;
  optional : list string
}.

(** What the documentation object says about one endpoint. *)
Definition documented_entry (e : endpoint_doc) : entry :=
  {| verb := method e;
     path := url e;
     required :=
       map fst (List.filter (fun p => p_required (snd p)) (parameters e));
     optional :=
       map fst
         (List.filter (fun p => negb (p_required (snd p))) (parameters e))
  |}.

(** The endpoints the service documents, in the order of the object. *)
Definition documented (cfg : config) (now_iso : string) : list entry :=
  map (fun named => documented_entry (snd named))
    (endpoints (apiDocumentation cfg now_iso)).

(** The literal endpoint contract of the specification, in its order,
    with path suffixes. *)
Definition literal_contract : list entry :=
  [ {| verb := "POST"; path := "/register";
       required := ["email"; "phone"; "password"; "first_name"; "last_name"];
       optional := ["companyName"] |};
    {| verb := "POST"; path := "/register_auth";
       required := ["email"; "otp"]; optional := [] |};
    {| verb := "POST"; path := "/resend_otp";
       required := ["email"; "event"]; optional := [] |};
    {| verb := "POST"; path := "/login";
       required := ["email"; "password"]; optional := [] |};
    {| verb := "POST"; path := "/refresh-token";
       required := ["refreshToken"]; optional := [] |};
    {| verb := "GET"; path := "/profile";
       required := ["email"]; optional := [] |};
    {| verb := "POST"; path := "/reset_pass_user_auth";
       required := ["email"]; optional := [] |};
    {| verb := "POST"; path := "/reset_pass_otp_auth";
       required := ["email"; "otp"]; optional := [] |};
    {| verb := "POST"; path := "/reset_password";
       required := ["email"; "newPassword"]; optional := [] |};
    {| verb := "POST"; path := "/logout";
       required := ["email"]; optional := [] |} ].

(** The health check, which the service documents beside the contract. *)
Definition health_entry : entry :=
  {| verb := "GET"; path := "/health"; required := []; optional := [] |}.

(** A contract entry with its path suffix put under the service URL. *)
Definition under (cfg : config) (e : entry) : entry :=
  {| verb := verb e; path := endpoint_url cfg (path e);
     required := required e; optional := optional e |}.

(** A configuration to run the definitions on. *)
Definition sample_config : config :=
  {| routes_user := "user"; port_user := "4007";
     rateLimit_windowMs := 900000; rateLimit_max := 100 |}.

(** The allow-list as the specification words it: "ALLOWED_ORIGINS when
    set, otherwise the default list". *)
Definition configuredOrigins (env : gmap string ustring) : list ustring :=
  match env !! "ALLOWED_ORIGINS" with
  | Some v => map trim (split comma v)
  | None => defaultOrigins
  end.

(** The behaviour of the origin callback as the specification words it:
    accept without an Origin header; with one, accept exactly when it is
    on the allow-list and fail otherwise. *)
Definition cors_as_worded (env : gmap string ustring)
    (origin : option ustring) : Prop :=
  match origin with
  | None => fst (corsOrigin env None) = Allowed
  | Some o =>
      (fst (corsOrigin env (Some o)) = Allowed <-> o ∈ configuredOrigins env)
      /\ (o ∉ configuredOrigins env ->
          exists msg, fst (corsOrigin env (Some o)) = Failed msg)
  end.

End Contract.

(** ** Components behind [./user_routes]

    The server mounts [user_routes] and documents its endpoints, but the
    route handlers and the services under them are not part of the two
    files above.  They are modelled here from the written specification. *)

(** Modelled from the spec: the error taxonomy of the orchestrator
    boundary (the implementation in [./user_routes] is missing). *)
Inductive error :=
| ValidationError
| DuplicateAccount
| AccountNotVerified
| InvalidCredentials
| OtpNotFound
| OtpExpired
| OtpMismatch
| OtpExhausted
| TokenExpired
| TokenInvalid
| TokenRevoked
| RateLimited
| InternalError.

(** Modelled from the spec: "each orchestrator operation returns a
    structured result (success payload or one of the typed failures)";
    the result type of the missing services. *)
Inductive result (A : Type) :=
| Ok (a : A)
| Err (e : error).

Arguments Ok {A} a.
Arguments Err {A} e.

(** Whether an operation succeeded. *)
Definition is_ok {A : Type} (r : result A) : bool :=
  match r with Ok _ => true | Err _ => false end.

(** Modelled from the spec: operations of the missing services read and
    write a shared store and either succeed or fail with a typed error;
    writes made before a failure stay. *)
Module StateErr.

Definition M (S A : Type) : Type := S -> result A * S.

Definition ret {S A : Type} (a : A) : M S A := fun s => (Ok a, s).

Definition fail {S A : Type} (e : error) : M S A := fun s => (Err e, s).

Definition bind {S A B : Type} (m : M S A) (k : A -> M S B) : M S B :=
  fun s =>
    match m s with
    | (Ok a, s') => k a s'
    | (Err e, s') => (Err e, s')
    end.

Definition get {S : Type} : M S S := fun s => (Ok s, s).

Definition modify {S : Type} (f : S -> S) : M S unit :=
  fun s => (Ok tt, f s).

(** A step that needs no store: lift a pure result. *)
Definition pure {S A : Type} (r : result A) : M S A := fun s => (r, s).

End StateErr.

#[export] Instance staterr_ret {S : Type} : MRet (StateErr.M S) :=
  fun _ a => StateErr.ret a.
#[export] Instance staterr_bind {S : Type} : MBind (StateErr.M S) :=
  fun _ _ k m => StateErr.bind m k.

(** Modelled from the spec: the expiry test of the missing OTP Manager and
    Token Service, "past TTL".  Timestamps are seconds and a record or
    token is past its expiry strictly after it. *)
Definition past (expiry now : Z) : bool := expiry <? now.

(** *** OTP Manager *)

(** Modelled from the spec: the salted hash under which a code is stored
    (the hashing used by the missing OTP Manager is a collaborator). *)
Class OtpHasher := { otp_hash : string -> string -> string }.

Module Otp.

(** Modelled from the spec: the intent tag of an OTP record. *)
Inductive intent := Register | ResetPassword.

#[export] Instance intent_eq_dec : EqDecision intent.
Proof. solve_decision. Defined.

(** Modelled from the spec: the OTP Record of the data model, with the
    supersession made explicit as a flag. *)
Record record := {
  owner : string;
  tag : intent;
  salt : string;
  code_hash : string;
  issued_at : Z;
  expires_at : Z;
  consumed : bool;
  superseded : bool;
  attempts : nat
}.

(** Modelled from the spec: "fixed TTL, e.g. 10 minutes". *)
Definition OTP_TTL : Z := 600.

(** Modelled from the spec: "a fixed limit (e.g. 5)". *)
Definition MAX_ATTEMPTS : nat := 5.

(** Modelled from the spec: the record belongs to "that exact (account,
    intent)". *)
Definition for_pair (a : string) (i : intent) (r : record) : bool :=
  bool_decide (owner r = a) && bool_decide (tag r = i).

(** Modelled from the spec: the record [verify] of the missing OTP Manager
    looks for, one of the pair that is neither consumed nor superseded
    (whether it has expired is tested afterwards, so that OtpExpired can be
    told from OtpNotFound). *)
Definition live (a : string) (i : intent) (r : record) : bool :=
  for_pair a i r && negb (consumed r) && negb (superseded r).

(** Modelled from the spec: an active record is "unconsumed, unexpired,
    unsuperseded". *)
Definition active (a : string) (i : intent) (now : Z) (r : record) : bool :=
  live a i r && negb (past (expires_at r) now).

(** Modelled from the spec: the three updates of a stored record,
    "superseded (invalidated) by a newer OTP", "marks consumed" and
    "increments attempt counter". *)
Definition supersede (r : record) : record :=
  {| owner := owner r; tag := tag r; salt := salt r;
     code_hash := code_hash r; issued_at := issued_at r;
     expires_at := expires_at r; consumed := consumed r;
     superseded := true; attempts := attempts r |}.

Definition consume (r : record) : record :=
  {| owner := owner r; tag := tag r; salt := salt r;
     code_hash := code_hash r; issued_at := issued_at r;
     expires_at := expires_at r; consumed := true;
     superseded := superseded r; attempts := attempts r |}.

Definition count_attempt (r : record) : record :=
  {| owner := owner r; tag := tag r; salt := salt r;
     code_hash := code_hash r; issued_at := issued_at r;
     expires_at := expires_at r; consumed := consumed r;
     superseded := superseded r; attempts := S (attempts r) |}.

Section WithHasher.
Context `{OtpHasher}.

(** Modelled from the spec: the record [issue] persists, the code "stored
    as a salted hash, never plaintext", with the fixed TTL. *)
Definition fresh (a : string) (i : intent) (code slt : string) (now : Z)
  : record :=
  {| owner := a; tag := i; salt := slt; code_hash := otp_hash slt code;
     issued_at := now; expires_at := now + OTP_TTL; consumed := false;
     superseded := false; attempts := 0 |}.

(** Modelled from the spec: [issue(accountId, intent)] of the missing
    OTP Manager.  The random code and salt are inputs; the stored
    records of the pair are superseded before the new one is added, and
    the plaintext code is returned for delivery. *)
Definition issue (a : string) (i : intent) (code slt : string) (now : Z)
    (store : list record) : string * list record :=
  (code,
   map (fun r => if for_pair a i r then supersede r else r) store
     ++ [fresh a i code slt now]).

(** Modelled from the spec: [resend(accountId, intent)], "equivalent to
    issue". *)
Definition resend := issue.

(** Modelled from the spec: "compares hashes", the submitted code hashed
    with the record's salt against the stored hash. *)
Definition matches (code : string) (r : record) : bool :=
  String.eqb (otp_hash (salt r) code) (code_hash r).

(** Modelled from the spec: the checks [verify] makes on the record it
    found, in the order the spec lists them, with the updated record. *)
Definition check (code : string) (now : Z) (r : record)
  : result unit * record :=
  if past (expires_at r) now then (Err OtpExpired, r)
  else if (MAX_ATTEMPTS <? attempts r)%nat then (Err OtpExhausted, r)
  else if matches code r then (Ok tt, consume r)
  else (Err OtpMismatch, count_attempt r).

(** Modelled from the spec: [verify(accountId, intent, submittedCode)]
    of the missing OTP Manager. *)
Fixpoint verify (a : string) (i : intent) (code : string) (now : Z)
    (store : list record) : result unit * list record :=
  match store with
  | [] => (Err OtpNotFound, [])
  | r :: rest =>
      if live a i r then
        let (res, r') := check code now r in (res, r' :: rest)
      else
        let (res, rest') := verify a i code now rest in (res, r :: rest')
  end.

(** Modelled from the spec: the operations a client of the OTP Manager
    can request, with the inputs each one needs. *)
Inductive op :=
| Issue (a : string) (i : intent) (code slt : string) (now : Z)
| Resend (a : string) (i : intent) (code slt : string) (now : Z)
| Verify (a : string) (i : intent) (code : string) (now : Z).

(** The store after one operation. *)
Definition apply (o : op) (store : list record) : list record :=
  match o with
  | Issue a i code slt now => snd (issue a i code slt now store)
  | Resend a i code slt now => snd (resend a i code slt now store)
  | Verify a i code now => snd (verify a i code now store)
  end.

(** The store after a sequence of operations, oldest first. *)
Definition run (ops : list op) (store : list record) : list record :=
  fold_left (fun s o => apply o s) ops store.

(** An operation that puts a new code matching [code] in place for the
    pair. *)
Definition reissues (a : string) (i : intent) (code : string) (o : op)
  : bool :=
  match o with
  | Issue a' i' code' slt _ | Resend a' i' code' slt _ =>
      bool_decide (a' = a) && bool_decide (i' = i)
      && String.eqb (otp_hash slt code) (otp_hash slt code')
  | Verify _ _ _ _ => false
  end.

(** An operation that issues any new code for the pair. *)
Definition issues_for (a : string) (i : intent) (o : op) : bool :=
  match o with
  | Issue a' i' _ _ _ | Resend a' i' _ _ _ =>
      bool_decide (a' = a) && bool_decide (i' = i)
  | Verify _ _ _ _ => false
  end.

(** How many records of the pair [verify] could still look at, and how
    many are active at [now]. *)
Definition live_count (a : string) (i : intent) (store : list record)
  : nat :=
  length (List.filter (live a i) store).

Definition active_count (a : string) (i : intent) (now : Z)
    (store : list record) : nat :=
  length (List.filter (active a i now) store).

(** No live record of the pair holds a hash that [code] matches. *)
Definition quiet (a : string) (i : intent) (code : string)
    (store : list record) : bool :=
  forallb (fun r => negb (live a i r && matches code r)) store.

(** At most one live record per pair. *)
Definition tidy (store : list record) : Prop :=
  forall a i, (live_count a i store <= 1)%nat.

End WithHasher.

End Otp.

(** *** Session Registry *)

Module Session.

(** Modelled from the spec: the Session Registry Entry of the data model;
    the missing registry is keyed by refresh-token identifier. *)
Record entry := {
  account : string;
  issuedAt : Z;
  revoked : bool
}.

(** Modelled from the spec: an entry "marked revoked". *)
Definition revoked_entry (e : entry) : entry :=
  {| account := account e; issuedAt := issuedAt e; revoked := true |}.

(** Modelled from the spec: [register(accountId, tokenId, issuedAt)] of
    the missing Session Registry. *)
Definition register (a : string) (tokenId : N) (at_ : Z)
    (reg : gmap N entry) : gmap N entry :=
  <[tokenId := {| account := a; issuedAt := at_; revoked := false |}]> reg.

(** Modelled from the spec: [isActive(tokenId)] of the missing Session
    Registry. *)
Definition isActive (tokenId : N) (reg : gmap N entry) : bool :=
  match reg !! tokenId with
  | Some e => negb (revoked e)
  | None => false
  end.

(** Modelled from the spec: [revoke(tokenId)] of the missing Session
    Registry. *)
Definition revoke (tokenId : N) (reg : gmap N entry) : gmap N entry :=
  alter revoked_entry tokenId reg.

(** Modelled from the spec: [revokeAllForAccount(accountId)] of the
    missing Session Registry. *)
Definition revokeAllForAccount (a : string) (reg : gmap N entry)
  : gmap N entry :=
  (fun e => if bool_decide (account e = a) then revoked_entry e else e)
    <$> reg.

End Session.

(** *** Token Service *)

(** Modelled from the spec: what a token binds, "account identifier,
    issuance time, expiry time, and a unique token identifier". *)
Record claims := {
  sub : string;
  iat : Z;
  exp : Z;
  jti : N
}.

(** Modelled from the spec: the signing scheme is "a pluggable capability
    ([sign(claims) -> token], [verify(token) -> claims | error])"; a token
    that was signed verifies to its claims. *)
Class TokenSigner := {
  token : Type;
  sign : claims -> token;
  checkSignature : token -> option claims;
  checkSignature_sign : forall c, checkSignature (sign c) = Some c
}.

Module Token.

Import StateErr.

(** Modelled from the spec: access tokens live 15 minutes, refresh tokens
    7 days (in seconds). *)
Definition ACCESS_TTL : Z := 15 * 60.
Definition REFRESH_TTL : Z := 7 * 24 * 60 * 60.

Section WithSigner.
Context `{TokenSigner}.

(** Modelled from the spec: the token pair returned "plus token type
    ([Bearer]) and expiry metadata". *)
Record token_pair := {
  accessToken : token;
  refreshToken : token;
  tokenType : string;
  expiresIn : string;
  refreshExpiresIn : string
}.

(** Modelled from the spec: the claims of the two tokens of a pair, each
    "binding account identifier, issuance time, expiry time, and a unique
    token identifier". *)
Definition accessClaims (a : string) (now : Z) (id : N) : claims :=
  {| sub := a; iat := now; exp := now + ACCESS_TTL; jti := id |}.

Definition refreshClaims (a : string) (now : Z) (id : N) : claims :=
  {| sub := a; iat := now; exp := now + REFRESH_TTL; jti := id |}.

(** Modelled from the spec: the pair [issuePair] returns, both tokens
    signed, "plus token type ([Bearer]) and expiry metadata". *)
Definition pair_for (a : string) (now : Z) (ids : N * N) : token_pair :=
  {| accessToken := sign (accessClaims a now (fst ids));
     refreshToken := sign (refreshClaims a now (snd ids));
     tokenType := "Bearer";
     expiresIn := "15m";
     refreshExpiresIn := "7d" |}.

(** Modelled from the spec: [issuePair(accountId)] of the missing Token
    Service.  The clock and the two fresh token identifiers (access,
    refresh) are inputs. *)
Definition issuePair (a : string) (now : Z) (ids : N * N)
  : M (gmap N Session.entry) token_pair :=
  _ ← modify (Session.register a (snd ids) now);
  mret (pair_for a now ids).

(** Modelled from the spec: "verifies signature/expiry", the part of
    [rotate] that needs no store. *)
Definition checked (t : token) (now : Z) : result claims :=
  match checkSignature t with
  | None => Err TokenInvalid
  | Some c => if past (exp c) now then Err TokenExpired else Ok c
  end.

(** Modelled from the spec: the "atomic check-and-set" on the registry:
    "read current state, act only if still valid, write new state". *)
Definition claim (c : claims) : M (gmap N Session.entry) unit :=
  fun reg =>
    if Session.isActive (jti c) reg
    then (Ok tt, Session.revoke (jti c) reg)
    else (Err TokenRevoked, reg).

(** Modelled from the spec: [rotate(refreshToken)] of the missing Token
    Service, "verify-then-revoke-then-issue". *)
Definition rotate (t : token) (now : Z) (ids : N * N)
  : M (gmap N Session.entry) token_pair :=
  c ← pure (checked t now);
  _ ← claim c;
  issuePair (sub c) now ids.

(** Modelled from the spec: [revokeAll(accountId)] of the missing Token
    Service. *)
Definition revokeAll (a : string) : M (gmap N Session.entry) unit :=
  modify (Session.revokeAllForAccount a).

(** **** Two rotations running at once

    A rotation request goes through the three steps of [rotate]; each
    step is atomic and the steps of two requests interleave freely. *)

(** Modelled from the spec: where a rotation request of the missing
    Token Service stands between its steps. *)
Inductive progress :=
| Received
| Verified (c : claims)
| Claimed (c : claims)
| Finished (r : result token_pair).

(** Modelled from the spec: a rotation request in flight, the token it
    presented, its clock, the identifiers for the new pair, and where it
    stands. *)
Record request := {
  presented : token;
  clock : Z;
  fresh_ids : N * N;
  at_step : progress
}.

(** A request as it arrives. *)
Definition submit (t : token) (now : Z) (ids : N * N) : request :=
  {| presented := t; clock := now; fresh_ids := ids;
     at_step := Received |}.

(** The request moved on to [p]. *)
Definition moved (q : request) (p : progress) : request :=
  {| presented := presented q; clock := clock q;
     fresh_ids := fresh_ids q; at_step := p |}.

(** Modelled from the spec: one atomic step of a rotation request on the
    shared registry, following [rotate]: the signature and expiry check,
    the check-and-set, the issue of the new pair.  A finished request does
    nothing. *)
Definition step (q : request) (reg : gmap N Session.entry)
  : request * gmap N Session.entry :=
  match at_step q with
  | Received =>
      match checked (presented q) (clock q) with
      | Ok c => (moved q (Verified c), reg)
      | Err e => (moved q (Finished (Err e)), reg)
      end
  | Verified c =>
      match claim c reg with
      | (Ok _, reg') => (moved q (Claimed c), reg')
      | (Err e, reg') => (moved q (Finished (Err e)), reg')
      end
  | Claimed c =>
      let (r, reg') := issuePair (sub c) (clock q) (fresh_ids q) reg in
      (moved q (Finished r), reg')
  | Finished _ => (q, reg)
  end.

(** Which of the two requests takes the next step. *)
Inductive turn := First | Second.

(** The two requests and the registry after the scheduler has given the
    turns of [sched] in order. *)
Fixpoint interleave (sched : list turn) (q1 q2 : request)
    (reg : gmap N Session.entry)
  : request * request * gmap N Session.entry :=
  match sched with
  | [] => (q1, q2, reg)
  | First :: sched' =>
      let (q1', reg') := step q1 reg in interleave sched' q1' q2 reg'
  | Second :: sched' =>
      let (q2', reg') := step q2 reg in interleave sched' q1 q2' reg'
  end.

(** The result of a request, once it has finished. *)
Definition outcome (q : request) : option (result token_pair) :=
  match at_step q with
  | Finished r => Some r
  | _ => None
  end.

(** How many turns the scheduler gives to one of the two requests. *)
Fixpoint turns (first : bool) (sched : list turn) : nat :=
  match sched with
  | [] => 0
  | First :: sched' => (if first then 1 else 0) + turns first sched'
  | Second :: sched' => (if first then 0 else 1) + turns first sched'
  end.

(** The steps a request still has to take. *)
Definition remaining (q : request) : nat :=
  match at_step q with
  | Received => 3
  | Verified _ => 2
  | Claimed _ => 1
  | Finished _ => 0
  end.

(** Where a request that presented the refresh token with claims [c]
    can stand: before the check-and-set, or turned away by it. *)
Definition early (c : claims) (q : request) : Prop :=
  at_step q = Received \/ at_step q = Verified c.

Definition lost (q : request) : Prop :=
  at_step q = Finished (Err TokenRevoked).

(** The request that got past the check-and-set, with the registry it
    has made of the initial [reg0]: the old identifier revoked and,
    once finished, the new refresh token registered. *)
Definition holds (c : claims) (reg0 : gmap N Session.entry)
    (q : request) (reg : gmap N Session.entry) : Prop :=
  (at_step q = Claimed c /\ reg = Session.revoke (jti c) reg0)
  \/ (at_step q
        = Finished (Ok (pair_for (sub c) (clock q) (fresh_ids q)))
      /\ reg = Session.register (sub c) (snd (fresh_ids q)) (clock q)
                 (Session.revoke (jti c) reg0)).

(** The request presents token [t], whose claims [c] are unexpired at
    its clock, and brings a refresh-token identifier other than the
    one being rotated out. *)
Definition entitled (t : token) (c : claims) (q : request) : Prop :=
  presented q = t /\ past (exp c) (clock q) = false
  /\ snd (fresh_ids q) <> jti c.

(** The configurations two rotations of the same token can be in,
    starting from registry [reg0]. *)
Definition racing (t : token) (c : claims) (reg0 : gmap N Session.entry)
    (q1 q2 : request) (reg : gmap N Session.entry) : Prop :=
  entitled t c q1 /\ entitled t c q2
  /\ ((reg = reg0 /\ early c q1 /\ early c q2)
      \/ (holds c reg0 q1 reg /\ (early c q2 \/ lost q2))
      \/ (holds c reg0 q2 reg /\ (early c q1 \/ lost q1))).

(** The two ways a pair of rotations of one token can end, given the
    registry [reg0] they started from: the named request got the new
    pair, the other one was turned away. *)
Definition settled (c : claims) (reg0 : gmap N Session.entry)
      (winner loser : request)
    (r_winner r_loser : result token_pair)
      (reg : gmap N Session.entry) : Prop :=
  r_winner = Ok (pair_for (sub c) (clock winner) (fresh_ids winner))
  /\ r_loser = Err TokenRevoked
  /\ reg = Session.register (sub c) (snd (fresh_ids winner)) (clock winner)
             (Session.revoke (jti c) reg0).

End WithSigner.

(** Modelled from the spec: the TTL notation of the documented login
    response ("15m", "7d"): a decimal count followed by a unit letter,
    read as seconds. *)
Definition unit_seconds (c : ascii) : option Z :=
  if Ascii.eqb c "s" then Some 1
  else if Ascii.eqb c "m" then Some 60
  else if Ascii.eqb c "h" then Some 3600
  else if Ascii.eqb c "d" then Some 86400
  else None.

(** A decimal digit, and the notation read from left to right. *)
Definition digit (c : ascii) : option Z :=
  let n := Z.of_N (N_of_ascii c) in
  if (48 <=? n) && (n <=? 57) then Some (n - 48) else None.

Fixpoint duration_from (acc : Z) (s : string) : option Z :=
  match s with
  | EmptyString => None
  | String c EmptyString => u ← unit_seconds c; Some (acc * u)
  | String c rest => d ← digit c; duration_from (10 * acc + d) rest
  end.

Definition duration (s : string) : option Z := duration_from 0 s.

End Token.

(** *** Credential Store *)

(** Modelled from the spec: "a salted, slow hash" of passwords (the KDF
    used by the missing Credential Store is a collaborator). *)
Class PasswordHasher := { password_hash : string -> string -> string }.

Module Credential.

Import StateErr.

(** Modelled from the spec: the profile fields of an Account. *)
Record profile := {
  first_name : string;
  last_name : string;
  phone : string;
  company : option string
}.

(** Modelled from the spec: the Account of the data model. *)
Record account := {
  identifier : string;
  pw_salt : string;
  pw_hash : string;
  verified : bool;
  details : profile
}.

(** Modelled from the spec: the "case-insensitive compare" of identifiers,
    by lower-casing the letters. *)
Definition lower (c : ascii) : ascii :=
  let n := N_of_ascii c in
  if ((65 <=? n) && (n <=? 90))%N then ascii_of_N (n + 32) else c.

(** Modelled from the spec: identifiers are "case-normalized". *)
Fixpoint normalize (s : string) : string :=
  match s with
  | EmptyString => EmptyString
  | String c s' => String (lower c) (normalize s')
  end.

(** Modelled from the spec: [find(identifier)] of the missing Credential
    Store; [None] is its [NotFound]. *)
Definition find (id : string) (store : gmap string account)
  : option account :=
  store !! normalize id.

(** Modelled from the spec: [create(identifier, passwordHash, profile)]
    of the missing Credential Store. *)
Definition create (id slt hash : string) (p : profile)
  : M (gmap string account) unit :=
  fun store =>
    match find id store with
    | Some _ => (Err DuplicateAccount, store)
    | None =>
        (Ok tt,
         <[normalize id :=
             {| identifier := normalize id; pw_salt := slt;
                pw_hash := hash; verified := false; details := p |}]>
           store)
    end.

(** Modelled from the spec: [setVerified(identifier)]. *)
Definition setVerified (id : string) (store : gmap string account)
  : gmap string account :=
  alter (fun a => {| identifier := identifier a; pw_salt := pw_salt a;
                     pw_hash := pw_hash a; verified := true;
                     details := details a |})
    (normalize id) store.

(** Modelled from the spec: [updatePasswordHash(identifier, newHash)]. *)
Definition updatePasswordHash (id slt hash : string)
    (store : gmap string account) : gmap string account :=
  alter (fun a => {| identifier := identifier a; pw_salt := slt;
                     pw_hash := hash; verified := verified a;
                     details := details a |})
    (normalize id) store.

(** Modelled from the spec: the comparison of [passwordMatches] against
    the stored hash of an account. *)
Definition hashMatches `{PasswordHasher} (a : account) (plaintext : string)
  : bool :=
  String.eqb (password_hash (pw_salt a) plaintext) (pw_hash a).

(** Modelled from the spec: [passwordMatches(identifier, plaintext)] of
    the missing Credential Store. *)
Definition passwordMatches `{PasswordHasher} (id plaintext : string)
    (store : gmap string account) : bool :=
  match find id store with
  | Some a => hashMatches a plaintext
  | None => false
  end.

End Credential.

(** *** Auth Orchestrator *)

Module Auth.

Import StateErr.

(** Modelled from the spec: the shared stores the orchestrator composes,
    and the codes handed to the email-delivery collaborator. *)
Record state := {
  accounts : gmap string Credential.account;
  otps : list Otp.record;
  sessions : gmap N Session.entry;
  outbox : list (string * string * Otp.intent)
}.

Section WithCollaborators.
Context `{OtpHasher} `{PasswordHasher} `{TokenSigner}.

(** Modelled from the spec: the orchestrator "invokes ... Token Service
    as required, and updates Session Registry"; a Token Service operation
    run on the session registry of the state. *)
Definition onSessions {A : Type} (m : M (gmap N Session.entry) A)
  : M state A :=
  fun st =>
    let (r, reg) := m (sessions st) in
    (r, {| accounts := accounts st; otps := otps st; sessions := reg;
           outbox := outbox st |}).

(** Modelled from the spec: the login success payload, the token pair
    with its metadata and the user. *)
Record login_payload := {
  tokens : Token.token_pair;
  user : Credential.profile
}.

(** Modelled from the spec: the Login contract of the missing
    orchestrator: "requires Verified account; Credential Store
    [passwordMatches]; on success Token Service [issuePair]". *)
Definition login (id password : string) (now : Z) (ids : N * N)
  : M state login_payload :=
  st ← get;
  match Credential.find id (accounts st) with
  | None => fail InvalidCredentials
  | Some a =>
      if negb (Credential.verified a) then fail AccountNotVerified
      else if negb (Credential.hashMatches a password)
           then fail InvalidCredentials
      else
        p ← onSessions (Token.issuePair (Credential.identifier a) now ids);
        mret {| tokens := p; user := Credential.details a |}
  end.

(** Modelled from the spec: the Forgot password contract of the missing
    orchestrator: "issue OTP(intent=reset) for any existing account;
    identical response whether or not the account exists". *)
Definition forgotPassword (id code slt : string) (now : Z)
  : M state unit :=
  st ← get;
  match Credential.find id (accounts st) with
  | None => mret tt
  | Some a =>
      let (plain, otps') :=
        Otp.issue (Credential.identifier a) Otp.ResetPassword code slt
          now (otps st) in
      modify (fun st =>
        {| accounts := accounts st; otps := otps';
           sessions := sessions st;
           outbox := outbox st
             ++ [(Credential.identifier a, plain, Otp.ResetPassword)] |})
  end.

(** Modelled from the spec: the Refresh contract, Token Service
    [rotate]. *)
Definition refresh (t : token) (now : Z) (ids : N * N)
  : M state Token.token_pair :=
  onSessions (Token.rotate t now ids).

(** Modelled from the spec: the Logout contract, Token Service
    [revokeAll]. *)
Definition logout (id : string) : M state unit :=
  onSessions (Token.revokeAll (Credential.normalize id)).

(** Two states that differ only in whether the account [id] exists:
    the second is the first without it. *)
Definition without (id : string) (st : state) : state :=
  {| accounts := delete (Credential.normalize id) (accounts st);
     otps := otps st; sessions := sessions st; outbox := outbox st |}.

(** The enumeration property as the specification words it, for the
    login flow: the response is the same with and without the
    account. *)
Definition login_hides_account (id password : string) (now : Z)
    (ids : N * N) (st : state) : Prop :=
  fst (login id password now ids st)
  = fst (login id password now ids (without id st)).

(** The same for the forgot-password flow. *)
Definition forgotPassword_hides_account (id code slt : string) (now : Z)
    (st : state) : Prop :=
  fst (forgotPassword id code slt now st)
  = fst (forgotPassword id code slt now (without id st)).

End WithCollaborators.

End Auth.

(** ** Concrete collaborators

    A stand-in choice of the pluggable hashing and signing, to run the
    definitions on examples. *)

Module Demo.

Local Open Scope string_scope.

(** Salt and text joined, standing in for a hash. *)
Definition salted (slt text : string) : string := slt +:+ "$" +:+ text.

Definition otpHasher : OtpHasher := {| otp_hash := salted |}.

Definition passwordHasher : PasswordHasher := {| password_hash := salted |}.

(** Tokens that carry their claims beside a seal. *)
Definition unseal (t : claims * string) : option claims :=
  if String.eqb (snd t) "signed" then Some (fst t) else None.

Definition tokenSigner : TokenSigner :=
  {| token := claims * string;
     sign := fun c => (c, "signed");
     checkSignature := unseal;
     checkSignature_sign := fun c => eq_refl |}.

(** A verified account with password "pw", and a state holding only
    it. *)
Definition alice : Credential.account :=
  {| Credential.identifier := "a@x.com";
     Credential.pw_salt := "s1";
     Credential.pw_hash := salted "s1" "pw";
     Credential.verified := true;
     Credential.details :=
       {| Credential.first_name := "A"; Credential.last_name := "X";
          Credential.phone := "1"; Credential.company := None |} |}.

Definition one_account : Auth.state :=
  {| Auth.accounts := {[ "a@x.com" := alice ]};
     Auth.otps := [];
     Auth.sessions := ∅;
     Auth.outbox := [] |}.

(** A refresh token of that account, registered as session 7, and a
    schedule for two requests that present it. *)
Definition refresh7 : claims := Token.refreshClaims "a@x.com" 0 7.

Definition token7 : @token tokenSigner := @sign tokenSigner refresh7.

Definition registry7 : gmap N Session.entry :=
  Session.register "a@x.com" 7 0 ∅.

Definition schedule : list Token.turn :=
  [ Token.First; Token.Second; Token.Second; Token.First; Token.First;
    Token.Second ].

(** The OTP store after one registration code was issued. *)
Definition issued_once : list Otp.op :=
  [ Otp.Issue "a@x.com" Otp.Register "123456" "s2" 0 ].

End Demo.

(** ** The token check of [Rishab node/server.js] against the wording of
    access-token verification *)

Module Access.

Import FakeAuth.

(** A request that carries the authorization header [token] and nothing
    else. *)
Definition bare (token : option string) : request :=
  {| headers :=
       match token with
       | Some t => {[ "authorization"%string := t ]}
       | None => ∅
       end |}.

(** The verification of an access token as the specification words it,
    read on [fakeAuth]: under a signature check [check] that gives the
    claims of a validly signed token, a token [t] presented at time [now]
    is refused when its signature check fails, refused when it is past its
    expiry, and let through otherwise. *)
Definition as_worded (check : string -> option claims) (t : string)
    (now : Z) : Prop :=
  match check t with
  | None => fakeAuth (bare (Some t)) <> Next
  | Some c =>
      if past (exp c) now then fakeAuth (bare (Some t)) <> Next
      else fakeAuth (bare (Some t)) = Next
  end.

(** A signature check under which the fixed token is signed, for the
    account "a@x.com", issued at 0 and expiring at 900. *)
Definition fixed_signed (t : string) : option claims :=
  if String.eqb t "FAKE_TOKEN_123"
  then Some {| sub := "a@x.com"; iat := 0; exp := 900; jti := 1 |}
  else None.

End Access.

(** ** The allow-list as a string: joining and padding

    What [ALLOWED_ORIGINS.split(',').map(s => s.trim())] makes of a
    setting is stated against the way such a setting is written: entries
    joined by commas, each with white space around it. *)

Module Origins.

Import Server.

(** [pieces.join(sep)] for a one-character separator. *)
Fixpoint join (sep : N) (pieces : list ustring) : ustring :=
  match pieces with
  | [] => []
  | piece :: rest =>
      match rest with
      | [] => piece
      | _ :: _ => piece ++ sep :: join sep rest
      end
  end.

(** Only white space. *)
Definition all_white (s : ustring) : bool := forallb is_white_space s.

(** Only white space and commas. *)
Definition blank (s : ustring) : bool :=
  forallb (fun c => is_white_space c || (c =? comma)%N) s.

(** No white space at the front, and none at the back. *)
Definition starts_clean (s : ustring) : bool :=
  match s with
  | [] => true
  | c :: _ => negb (is_white_space c)
  end.

Definition ends_clean (s : ustring) : bool := starts_clean (rev s).

(** An entry as it is written in the setting: white space, the entry,
    white space. *)
Record padded := {
  before : ustring;
  entry : ustring;
  after : ustring
}.

Definition written (p : padded) : ustring := before p ++ entry p ++ after p.

(** The padding is white space and the entry is a trimmed string without
    a comma. *)
Definition well_padded (p : padded) : Prop :=
  all_white (before p) = true /\ all_white (after p) = true
  /\ trim (entry p) = entry p /\ comma ∉ entry p.

(** The environment with [ALLOWED_ORIGINS] set to [v]. *)
Definition setting (v : ustring) (env : gmap string ustring)
  : gmap string ustring :=
  <["ALLOWED_ORIGINS"%string := v]> env.

End Origins.

(** ** The application: the layers of [testing_repo21/server.js] in the
    order they are mounted

    The middleware imported from [./middleware] and [./user_routes], the
    [cors] and [express] packages and Express's path matching are
    collaborators; the three handlers written in the file and the origin
    callback are the definitions of [Server]. *)

Module App.

Import Server.
Local Open Scope string_scope.

(** The request as the layers see it: what the 404 handler reads, and
    [req.headers.origin]. *)
Record request := {
  meta : Server.request;
  origin : option ustring
}.

Section WithCollaborators.

(** What the collaborators send as a response, and what they throw. *)
Variables (R E : Type).

(** An error passed to [next(err)]: the [Error] of the origin callback, or
    one of a collaborator. *)
Inductive failure :=
| Rejected (message : string)
| Thrown (e : E).

(** A response sent by one of the handlers of the file, or by a
    collaborator. *)
Inductive response :=
| NotFound (r : not_found_response)
| Documentation (console : list string) (body : api_documentation)
| Redirect (location : string)
| Other (r : R).

(** What a layer does with a request: it sends a response, calls
    [next()] (the request possibly changed), or calls [next(err)]. *)
Inductive signal :=
| Respond (r : response)
| Continue (req : request)
| Raise (e : failure).

Definition middleware : Type := request -> signal.

(** The collaborators: the imported middleware and routes, the part of
    the [cors] package that runs once the origin is accepted, the parsers
    of [express], the error-handling middleware [errorHandler] that the
    file mounts last ("Global error handler (must be last)"), and
    Express's matching of a mount path ([app.use(path)]) and of a GET
    route ([app.get(path)]) against a request. *)
Record collaborators := {
  securityMiddleware : middleware;
  apiRateLimit : middleware;
  corsAccepted : middleware;
  jsonParser : middleware;
  urlencodedParser : middleware;
  addRequestId : middleware;
  requestLogger : middleware;
  healthCheck : middleware;
  user_routes : middleware;
  errorHandler : failure -> middleware;
  mounted : string -> request -> bool;
  routed : string -> request -> bool
}.

(** The ways a layer is mounted: [app.use(mw)], [app.use(path, mw)],
    [app.get(path, handler)], and [app.use] of an error handler. *)
Inductive layer :=
| Use (mw : middleware)
| UseAt (path : string) (mw : middleware)
| Get (path : string) (handler : middleware)
| UseError (handler : failure -> middleware).

(** [`/${config.routes.user}`] *)
Definition mount_path (cfg : config) : string := "/" +:+ routes_user cfg.

(** [cors(corsOptions)]: the package asks the origin callback and passes
    its error to [next]; otherwise it goes on with the accepted origin. *)
Definition corsLayer (env : gmap string ustring) (c : collaborators)
  : middleware :=
  fun req =>
    match fst (corsOrigin env (origin req)) with
    | Failed message => Raise (Rejected message)
    | Allowed => corsAccepted c req
    end.

(** [app.get('/', async (req, res) => res.redirect(...))] *)
Definition rootHandler (cfg : config) : middleware :=
  fun _ => Respond (Redirect (route_path cfg "/docs")).

(** [app.get(`/${config.routes.user}/docs`, ...)]: the debug line and
    [res.json(apiDocumentation)]. *)
Definition docsHandler (cfg : config) (now_iso : string) : middleware :=
  fun _ =>
    Respond (Documentation [ debugRegister "route" (route_path cfg "/docs") ]
               (apiDocumentation cfg now_iso)).

(** [app.use('*', (req, res) => ...)]; the path ['*'] matches every
    request. *)
Definition notFound (cfg : config) : middleware :=
  fun req => Respond (NotFound (notFoundHandler cfg (meta req))).

(** The layers, in the order of the [app.use] and [app.get] calls. *)
Definition layers (cfg : config) (env : gmap string ustring)
    (now_iso : string) (c : collaborators) : list layer :=
  [ Use (securityMiddleware c);
    UseAt (mount_path cfg) (apiRateLimit c);
    Use (corsLayer env c);
    Use (jsonParser c);
    Use (urlencodedParser c);
    Use (addRequestId c);
    Use (requestLogger c);
    Get (route_path cfg "/health") (healthCheck c);
    Get "/" (rootHandler cfg);
    Get (route_path cfg "/docs") (docsHandler cfg now_iso);
    UseAt (mount_path cfg) (user_routes c);
    Use (notFound cfg);
    UseError (errorHandler c) ].

(** Where a request stands between two layers: on its way, or with an
    error pending. *)
Inductive progress :=
| Normal (req : request)
| Failing (e : failure) (req : request).

(** How the handling of a request ends: a response was sent, or the
    layers ran out, with or without an error pending. *)
Inductive outcome :=
| Sent (r : response)
| Unanswered (req : request)
| Unhandled (e : failure) (req : request).

(** The effect of what a layer did. *)
Definition after (s : signal) (req : request) : outcome + progress :=
  match s with
  | Respond r => inl (Sent r)
  | Continue req' => inr (Normal req')
  | Raise e => inr (Failing e req)
  end.

(** One layer, the way Express runs it: a layer that does not match is
    skipped, with an error pending every layer but an error handler is
    skipped, and without one the error handlers are. *)
Definition enter (c : collaborators) (l : layer) (p : progress)
  : outcome + progress :=
  match p, l with
  | Normal req, Use mw => after (mw req) req
  | Normal req, UseAt path mw =>
      if mounted c path req then after (mw req) req else inr p
  | Normal req, Get path handler =>
      if routed c path req then after (handler req) req else inr p
  | Normal _, UseError _ => inr p
  | Failing e req, UseError handler => after (handler e req) req
  | Failing _ _, _ => inr p
  end.

Fixpoint through (c : collaborators) (ls : list layer) (p : progress)
  : outcome + progress :=
  match ls with
  | [] => inr p
  | l :: ls' =>
      match enter c l p with
      | inl o => inl o
      | inr p' => through c ls' p'
      end
  end.

Definition finish (r : outcome + progress) : outcome :=
  match r with
  | inl o => o
  | inr (Normal req) => Unanswered req
  | inr (Failing e req) => Unhandled e req
  end.

(** The application on one request. *)
Definition app (cfg : config) (env : gmap string ustring) (now_iso : string)
    (c : collaborators) (req : request) : outcome :=
  finish (through c (layers cfg env now_iso c) (Normal req)).

(** The seven layers mounted before the routes. *)
Definition middlewares (cfg : config) (env : gmap string ustring)
    (c : collaborators) : list layer :=
  [ Use (securityMiddleware c);
    UseAt (mount_path cfg) (apiRateLimit c);
    Use (corsLayer env c);
    Use (jsonParser c);
    Use (urlencodedParser c);
    Use (addRequestId c);
    Use (requestLogger c) ].

(** [req2] is the request after the security middleware and the rate
    limiter, when both let it pass. *)
Definition past_limiter (cfg : config) (c : collaborators)
    (req req2 : request) : Prop :=
  exists req1,
    securityMiddleware c req = Continue req1
    /\ if mounted c (mount_path cfg) req1
       then apiRateLimit c req1 = Continue req2
       else req2 = req1.

(** The error handler always sends a response. *)
Definition answering (c : collaborators) : Prop :=
  forall e req, exists r, errorHandler c e req = Respond r.

(** The collaborators with another rate limiter. *)
Definition with_limiter (limiter : middleware) (c : collaborators)
  : collaborators :=
  {| securityMiddleware := securityMiddleware c;
     apiRateLimit := limiter;
     corsAccepted := corsAccepted c;
     jsonParser := jsonParser c;
     urlencodedParser := urlencodedParser c;
     addRequestId := addRequestId c;
     requestLogger := requestLogger c;
     healthCheck := healthCheck c;
     user_routes := user_routes c;
     errorHandler := errorHandler c;
     mounted := mounted c;
     routed := routed c |}.

End WithCollaborators.

Arguments Rejected {E} message.
Arguments Thrown {E} e.
Arguments NotFound {R} r.
Arguments Documentation {R} console body.
Arguments Redirect {R} location.
Arguments Other {R} r.
Arguments Respond {R E} r.
Arguments Continue {R E} req.
Arguments Raise {R E} e.
Arguments Use {R E} mw.
Arguments UseAt {R E} path mw.
Arguments Get {R E} path handler.
Arguments UseError {R E} handler.
Arguments Normal {E} req.
Arguments Failing {E} e req.
Arguments Sent {R E} r.
Arguments Unanswered {R E} req.
Arguments Unhandled {R E} e req.
Arguments securityMiddleware {R E} c.
Arguments apiRateLimit {R E} c.
Arguments corsAccepted {R E} c.
Arguments jsonParser {R E} c.
Arguments urlencodedParser {R E} c.
Arguments addRequestId {R E} c.
Arguments requestLogger {R E} c.
Arguments healthCheck {R E} c.
Arguments user_routes {R E} c.
Arguments errorHandler {R E} c.
Arguments mounted {R E} c.
Arguments routed {R E} c.
Arguments corsLayer {R E} env c.
Arguments rootHandler {R E} cfg.
Arguments docsHandler {R E} cfg now_iso.
Arguments notFound {R E} cfg.
Arguments layers {R E} cfg env now_iso c.
Arguments after {R E} s req.
Arguments enter {R E} c l p.
Arguments through {R E} c ls p.
Arguments finish {R E} r.
Arguments app {R E} cfg env now_iso c req.
Arguments middlewares {R E} cfg env c.
Arguments with_limiter {R E} limiter c.
Arguments past_limiter {R E} cfg c req req2.
Arguments answering {R E} c.

End App.

(** ** The documentation object and the 404 list side by side *)

Module Docs.

Import Server.
Local Open Scope string_scope.

(** The path suffixes of the documented endpoints, in the order of the
    object. *)
Definition documented_suffixes : list string :=
  [ "/health"; "/profile"; "/refresh-token"; "/resend_otp"; "/register";
    "/register_auth"; "/login"; "/reset_pass_user_auth";
    "/reset_pass_otp_auth"; "/reset_password"; "/logout" ].

(** The URLs and the names of the documented endpoints. *)
Definition urls (cfg : config) (now_iso : string) : list string :=
  map (fun named => url (snd named))
    (endpoints (apiDocumentation cfg now_iso)).

Definition names (cfg : config) (now_iso : string) : list string :=
  map fst (endpoints (apiDocumentation cfg now_iso)).

End Docs.

(** ** Sample collaborators and requests

    Stand-ins for the imported middleware, to run the application on
    examples. *)

Module Sample.

Import Server App Origins.
Local Open Scope string_scope.

(** The request with an identifier attached. *)
Definition tagged (req : request) : request :=
  {| meta :=
       {| requestId := Some "r-1";
          req_method := req_method (meta req);
          originalUrl := originalUrl (meta req);
          ip := ip (meta req) |};
     origin := origin req |}.

(** Middleware that let every request pass, an API router that knows no
    route, an error handler that answers with the message, and exact
    matching of paths. *)
Definition plain : collaborators string string :=
  {| securityMiddleware := Continue;
     apiRateLimit := Continue;
     corsAccepted := Continue;
     jsonParser := Continue;
     urlencodedParser := Continue;
     addRequestId := fun req => Continue (tagged req);
     requestLogger := Continue;
     healthCheck := fun _ => Respond (Other "healthy");
     user_routes := Continue;
     errorHandler := fun e _ =>
       Respond (Other match e with Rejected m => m | Thrown m => m end);
     mounted := fun path req => String.prefix path (originalUrl (meta req));
     routed := fun path req =>
       String.eqb (req_method (meta req)) "GET"
       && String.eqb path (originalUrl (meta req)) |}.

(** The same with a body parser that throws. *)
Definition strict : collaborators string string :=
  {| securityMiddleware := securityMiddleware plain;
     apiRateLimit := apiRateLimit plain;
     corsAccepted := corsAccepted plain;
     jsonParser := fun _ => Raise (Thrown "Unexpected token");
     urlencodedParser := urlencodedParser plain;
     addRequestId := addRequestId plain;
     requestLogger := requestLogger plain;
     healthCheck := healthCheck plain;
     user_routes := user_routes plain;
     errorHandler := errorHandler plain;
     mounted := mounted plain;
     routed := routed plain |}.

(** A rate limiter that answers every request. *)
Definition limited : middleware string string :=
  fun _ => Respond (Other "Too many API requests, please try again later.").

(** A GET request for [path] with the given Origin header. *)
Definition get (path : string) (o : option ustring) : request :=
  {| meta :=
       {| requestId := None; req_method := "GET"; originalUrl := path;
          ip := "127.0.0.1" |};
     origin := o |}.

(** A setting written with white space around its two entries. *)
Definition two_entries : list padded :=
  [ {| before := lit " "; entry := lit "https://a.example"; after := [] |};
    {| before := lit "  "; entry := lit "https://b.example";
       after := lit " " |} ].

End Sample.

(* ===================================================================== *)
(** * Part II: properties *)
(* ===================================================================== *)

(** ** The [fakeAuth] middleware *)

Section FakeAuthFacts.

Import FakeAuth.

Lemma truthy_false (v : option string) :
  Js.truthy v = false <-> v = None \/ v = Some EmptyString.
Proof.
  destruct v as [[|c s]|]; simpl; split; intros Hv; try done; auto;
    destruct Hv; discriminate.
Qed.

Lemma strict_neq_false (v : option string) (l : string) :
  Js.strict_neq v l = false <-> v = Some l.
Proof.
  destruct v as [s|]; simpl; [|split; discriminate].
  rewrite negb_false_iff, String.eqb_eq. split; congruence.
Qed.

(** C8.  For every request, [fakeAuth] answers 401 "No token provided"
    exactly when the authorization header is absent or empty (falsy),
    answers 403 "Invalid token" exactly when the header is present
    (truthy) and differs from "FAKE_TOKEN_123", calls [next()] exactly
    when the header equals "FAKE_TOKEN_123", and does nothing else. *)
Theorem fakeAuth_outcomes (req : request) :
  let token := headers req !! "authorization"%string in
  (fakeAuth req = Respond 401 {| error := "No token provided" |}
     <-> (token = None \/ token = Some EmptyString))
  /\ (fakeAuth req = Respond 403 {| error := "Invalid token" |}
     <-> (Js.truthy token = true /\ token <> Some "FAKE_TOKEN_123"%string))
  /\ (fakeAuth req = Next <-> token = Some "FAKE_TOKEN_123"%string)
  /\ (fakeAuth req = Respond 401 {| error := "No token provided" |}
      \/ fakeAuth req = Respond 403 {| error := "Invalid token" |}
      \/ fakeAuth req = Next).
Proof.
  intros token. unfold fakeAuth. fold token.
  destruct (Js.truthy token) eqn:Ht; simpl.
  - assert (Hne : ~ (token = None \/ token = Some EmptyString)).
    { rewrite <- truthy_false. congruence. }
    destruct (Js.strict_neq token "FAKE_TOKEN_123") eqn:Hs.
    + assert (Hd : token <> Some "FAKE_TOKEN_123"%string).
      { rewrite <- strict_neq_false. congruence. }
      repeat split; try discriminate; try tauto.
    + apply strict_neq_false in Hs.
      repeat split; try discriminate; try tauto.
  - apply truthy_false in Ht.
    repeat split; try discriminate; try tauto.
    + intros [? _]; discriminate.
    + intros ->. destruct Ht; discriminate.
Qed.

End FakeAuthFacts.

(** ** [fakeAuth] as the verification of an access token *)

Section AccessFacts.

Import FakeAuth Access.

Lemma bare_lookup (token : option string) :
  headers (bare token) !! "authorization"%string = token.
Proof.
  destruct token as [t|]; simpl.
  - apply lookup_singleton_eq.
  - apply lookup_empty.
Qed.

Lemma fakeAuth_fixed :
  fakeAuth (bare (Some "FAKE_TOKEN_123"%string)) = Next.
Proof. unfold fakeAuth. by rewrite bare_lookup. Qed.

(** No signature check makes [fakeAuth] the verification the
    specification words: the fixed token "FAKE_TOKEN_123" is let through
    whether or not its signature checks, and, if it does, also one second
    past the expiry its claims give. *)
Lemma fakeAuth_checks_no_expiry :
  ~ exists check : string -> option claims,
      forall (t : string) (now : Z), as_worded check t now.
Proof.
  intros [check Hworded].
  destruct (check "FAKE_TOKEN_123"%string) as [c|] eqn:Hcheck.
  - specialize (Hworded "FAKE_TOKEN_123"%string (exp c + 1)).
    unfold as_worded in Hworded. rewrite Hcheck in Hworded.
    assert (Hpast : past (exp c) (exp c + 1) = true).
    { unfold past. apply Z.ltb_lt. lia. }
    rewrite Hpast in Hworded. apply Hworded, fakeAuth_fixed.
  - specialize (Hworded "FAKE_TOKEN_123"%string 0).
    unfold as_worded in Hworded. rewrite Hcheck in Hworded.
    apply Hworded, fakeAuth_fixed.
Qed.

(** With the fixed token read as signed and expiring at 900, it is still
    let through at 901. *)
Lemma fakeAuth_past_expiry :
  ~ as_worded fixed_signed "FAKE_TOKEN_123" 901.
Proof. unfold as_worded. simpl. intros Hrefused. by apply Hrefused. Qed.

(** C1 (amended).  [fakeAuth], the token check of the source, lets a
    request through exactly when its authorization header equals the fixed
    token "FAKE_TOKEN_123"; otherwise it answers 401 "No token provided",
    exactly when the header is absent or empty, or 403 "Invalid token".
    It checks neither signature nor expiry and hands on no account
    identifier, and its outcome depends on the authorization header alone,
    on no session state. *)
Theorem fakeAuth_fixed_token_check (req : request) :
  let token := headers req !! "authorization"%string in
  fakeAuth req = fakeAuth (bare token)
  /\ (fakeAuth req = Next <-> token = Some "FAKE_TOKEN_123"%string)
  /\ (fakeAuth req = Respond 401 {| error := "No token provided" |}
      <-> (token = None \/ token = Some EmptyString))
  /\ (fakeAuth req = Next
      \/ fakeAuth req = Respond 401 {| error := "No token provided" |}
      \/ fakeAuth req = Respond 403 {| error := "Invalid token" |}).
Proof.
  intros token. split.
  { unfold fakeAuth. by rewrite bare_lookup. }
  unfold fakeAuth. fold token.
  destruct (Js.truthy token) eqn:Ht; simpl.
  - assert (Hne : ~ (token = None \/ token = Some EmptyString)).
    { rewrite <- truthy_false. congruence. }
    destruct (Js.strict_neq token "FAKE_TOKEN_123") eqn:Hs.
    + assert (Hd : token <> Some "FAKE_TOKEN_123"%string).
      { rewrite <- strict_neq_false. congruence. }
      repeat split; try discriminate; try tauto.
    + apply strict_neq_false in Hs.
      repeat split; try discriminate; try tauto.
  - apply truthy_false in Ht.
    repeat split; try discriminate; try tauto.
    intros ->. destruct Ht; discriminate.
Qed.

End AccessFacts.

(** ** The 404 handler *)

Section NotFoundFacts.

Import Server.
Local Open Scope string_scope.

(** C9.  Whatever the request, the 404 handler answers with status 404
    and a body whose error is "Route not found" and whose
    availableEndpoints is the same list of twelve paths: docs, health,
    profile, refresh-token, register, register_auth, login,
    reset_pass_user_auth, reset_pass_otp_auth, reset_password,
    resend_otp, logout, each under the configured route prefix. *)
Theorem notFoundHandler_response (cfg : config) (req req' : request) :
  nf_status (notFoundHandler cfg req) = 404
  /\ nf_error (nf_body (notFoundHandler cfg req)) = "Route not found"
  /\ availableEndpoints (nf_body (notFoundHandler cfg req))
     = map (route_path cfg) listed_suffixes
  /\ length (availableEndpoints (nf_body (notFoundHandler cfg req))) = 12%nat
  /\ NoDup listed_suffixes
  /\ availableEndpoints (nf_body (notFoundHandler cfg req))
     = availableEndpoints (nf_body (notFoundHandler cfg req')).
Proof.
  repeat split; try reflexivity.
  apply (bool_decide_unpack (NoDup listed_suffixes)). vm_compute. exact I.
Qed.

End NotFoundFacts.

(** ** The CORS origin callback *)

Section CorsFacts.

Import Server Contract.
Local Open Scope string_scope.

Lemma includes_true (l : list ustring) (o : ustring) :
  includes l o = true <-> o ∈ l.
Proof. unfold includes. apply bool_decide_eq_true. Qed.

Lemma includes_false (l : list ustring) (o : ustring) :
  includes l o = false <-> o ∉ l.
Proof. unfold includes. apply bool_decide_eq_false. Qed.

(** An empty Origin header is accepted although the empty string is not
    on the allow-list in force. *)
Lemma corsOrigin_empty_origin :
  ~ cors_as_worded ∅ (Some []).
Proof.
  unfold cors_as_worded. intros [Hiff _].
  assert (Hin : [] ∈ configuredOrigins ∅) by (apply Hiff; reflexivity).
  revert Hin. apply (bool_decide_eq_false_1 ([] ∈ configuredOrigins ∅)).
  vm_compute. reflexivity.
Qed.

(** With [ALLOWED_ORIGINS] set to the empty string the default list is
    in force. *)
Lemma corsOrigin_empty_setting :
  ~ cors_as_worded {[ "ALLOWED_ORIGINS" := [] ]}
      (Some (lit "http://localhost:3000")).
Proof.
  unfold cors_as_worded. intros [Hiff _].
  assert (Hin : lit "http://localhost:3000"
                  ∈ configuredOrigins {[ "ALLOWED_ORIGINS" := [] ]}).
  { apply Hiff. vm_compute. reflexivity. }
  revert Hin.
  apply (bool_decide_eq_false_1
           (lit "http://localhost:3000"
              ∈ configuredOrigins {[ "ALLOWED_ORIGINS" := [] ]})).
  vm_compute. reflexivity.
Qed.

(** C10 (amended).  The origin callback accepts every request whose
    Origin is absent or empty.  For a non-empty Origin it accepts exactly
    when the origin is on the allow-list in force and fails with "Not
    allowed by CORS" exactly when it is not.  The allow-list in force is
    the comma-separated, trimmed entries of ALLOWED_ORIGINS when that
    variable is set and non-empty, and otherwise the default list of six
    localhost origins plus https://oms-ims.onrender.com. *)
Theorem corsOrigin_decision (env : gmap string ustring) (c : N)
    (o : ustring) :
  corsOrigin env None = (Allowed, [])
  /\ corsOrigin env (Some []) = (Allowed, [])
  /\ (fst (corsOrigin env (Some (c :: o))) = Allowed
      <-> (c :: o) ∈ allowedOrigins env)
  /\ (fst (corsOrigin env (Some (c :: o))) = Failed "Not allowed by CORS"
      <-> (c :: o) ∉ allowedOrigins env)
  /\ allowedOrigins env
     = match env !! "ALLOWED_ORIGINS" with
       | Some (d :: v) => map trim (split comma (d :: v))
       | Some [] | None => defaultOrigins
       end
  /\ defaultOrigins
     = map lit [ "http://localhost:4007"; "http://localhost:4040";
                 "http://localhost:8080"; "http://localhost:3000";
                 "http://localhost:3001"; "http://localhost:4015";
                 "https://oms-ims.onrender.com" ].
Proof.
  split; [reflexivity|]. split; [reflexivity|].
  unfold corsOrigin. simpl truthy. simpl negb. cbv iota. simpl str.
  destruct (includes (allowedOrigins env) (c :: o)) eqn:Hin.
  - apply includes_true in Hin. simpl.
    repeat split; try done.
    unfold allowedOrigins. by destruct (env !! "ALLOWED_ORIGINS") as [[|d v]|].
  - apply includes_false in Hin. simpl.
    repeat split; try done.
    unfold allowedOrigins. by destruct (env !! "ALLOWED_ORIGINS") as [[|d v]|].
Qed.

End CorsFacts.

(** ** The documented endpoints *)

(** Prove a permutation of two explicit lists by finding the head of the
    left one in the right one. *)
Ltac place_head :=
  lazymatch goal with
  | |- Permutation (?x :: ?l) ?r =>
      let rec go pre r' :=
        lazymatch r' with
        | x :: ?post =>
            apply (Permutation_cons_app pre post x); cbn [app]
        | ?y :: ?r'' => go (pre ++ [y]) r''
        end in
      let T := type of x in go (@nil T) r
  end.

Section ContractFacts.

Import Server Contract.
Local Open Scope string_scope.

(** The documented endpoints are not just the ten of the contract: the
    documentation object has an eleventh, the health check. *)
Lemma documented_not_literal_contract :
  ~ documented sample_config "2024-01-01T00:00:00.000Z"
      ≡ₚ map (under sample_config) literal_contract.
Proof. intros Hp. apply Permutation_length in Hp. discriminate Hp. Qed.

(** C2 (amended).  The endpoints the service documents are the ten of the
    contract, each with its method, its path under the service URL and
    exactly the listed required fields (register also documents the
    optional companyName), together with GET /health; the 404 list names
    the paths of these eleven and /docs. *)
Theorem documented_endpoints (cfg : config) (now_iso : string)
    (req : request) :
  documented cfg now_iso
    ≡ₚ map (under cfg) (health_entry :: literal_contract)
  /\ availableEndpoints (nf_body (notFoundHandler cfg req))
     ≡ₚ map (route_path cfg) ("/docs" :: map path (health_entry :: literal_contract)).
Proof.
  split; cbv; repeat place_head; constructor.
Qed.

End ContractFacts.

(** ** OTP Manager: single use and supersession *)

Section OtpFacts.

Import Otp.
Context `{OtpHasher}.

Implicit Types (a : string) (i : intent) (r : record) (s : list record).

(** *** How the record updates change what [verify] looks at *)

Lemma live_supersede a i r : live a i (supersede r) = false.
Proof. unfold live; simpl. by rewrite andb_false_r. Qed.

Lemma live_consume a i r : live a i (consume r) = false.
Proof. unfold live; simpl. by rewrite andb_false_r. Qed.

Lemma live_count_attempt a i r : live a i (count_attempt r) = live a i r.
Proof. reflexivity. Qed.

Lemma matches_supersede code r : matches code (supersede r) = matches code r.
Proof. reflexivity. Qed.

Lemma for_pair_both a i a' i' r :
  for_pair a i r = true -> for_pair a' i' r = true -> a' = a /\ i' = i.
Proof.
  unfold for_pair. rewrite !andb_true_iff, !bool_decide_eq_true.
  intros [<- <-] [<- <-]. done.
Qed.

Lemma live_for_pair a i r : live a i r = true -> for_pair a i r = true.
Proof. unfold live. rewrite !andb_true_iff. tauto. Qed.

(** The result of [check] on a record, and the record it leaves. *)
Lemma check_cases code now r :
  (check code now r = (Ok tt, consume r) /\ matches code r = true)
  \/ (exists e, check code now r = (Err e, r))
  \/ (check code now r = (Err OtpMismatch, count_attempt r)
      /\ matches code r = false).
Proof.
  unfold check.
  destruct (past (expires_at r) now); [right; left; eauto|].
  destruct (MAX_ATTEMPTS <? attempts r)%nat; [right; left; eauto|].
  destruct (matches code r); [left|right; right]; done.
Qed.

(** *** Counting live records *)

Lemma live_count_cons a i r s :
  live_count a i (r :: s)
  = ((if live a i r then 1 else 0) + live_count a i s)%nat.
Proof. unfold live_count; simpl. by destruct (live a i r). Qed.

Lemma live_count_app a i s1 s2 :
  live_count a i (s1 ++ s2) = (live_count a i s1 + live_count a i s2)%nat.
Proof. unfold live_count. by rewrite List.filter_app, length_app. Qed.

Lemma issue_supersedes_pair a i s :
  live_count a i (map (fun r => if for_pair a i r then supersede r else r) s)
  = 0%nat.
Proof.
  induction s as [|r s IH]; [done|]. simpl. rewrite live_count_cons, IH.
  destruct (for_pair a i r) eqn:Hp.
  - by rewrite live_supersede.
  - unfold live. by rewrite Hp.
Qed.

Lemma issue_keeps_others a i a' i' s :
  (a', i') <> (a, i) ->
  live_count a' i'
    (map (fun r => if for_pair a i r then supersede r else r) s)
  = live_count a' i' s.
Proof.
  intros Hne. induction s as [|r s IH]; [done|]. simpl.
  rewrite !live_count_cons, IH. f_equal.
  destruct (for_pair a i r) eqn:Hp; [|done].
  rewrite live_supersede.
  destruct (live a' i' r) eqn:Hl; [|done].
  apply live_for_pair in Hl.
  destruct (for_pair_both _ _ _ _ _ Hl Hp) as [-> ->]. done.
Qed.

Lemma live_fresh a i a' i' code slt now :
  live a' i' (fresh a i code slt now)
  = bool_decide (a = a') && bool_decide (i = i').
Proof. unfold live, for_pair; simpl. by rewrite !andb_true_r. Qed.

Lemma issue_live_count a i code slt now s :
  live_count a i (snd (issue a i code slt now s)) = 1%nat.
Proof.
  unfold issue; simpl. rewrite live_count_app, issue_supersedes_pair.
  unfold live_count; simpl. rewrite live_fresh.
  by rewrite !bool_decide_eq_true_2.
Qed.

Lemma issue_live_count_other a i a' i' code slt now s :
  (a', i') <> (a, i) ->
  live_count a' i' (snd (issue a i code slt now s)) = live_count a' i' s.
Proof.
  intros Hne. unfold issue; simpl.
  rewrite live_count_app, issue_keeps_others by done.
  unfold live_count at 2; simpl. rewrite live_fresh.
  destruct (bool_decide (a = a')) eqn:Ha, (bool_decide (i = i')) eqn:Hi;
    simpl; try lia.
  apply bool_decide_eq_true in Ha, Hi. congruence.
Qed.

Lemma verify_live_count a i code now a' i' s :
  (live_count a' i' (snd (verify a i code now s)) <= live_count a' i' s)%nat.
Proof.
  induction s as [|r s IH]; [done|]. simpl.
  destruct (live a i r) eqn:Hl.
  - destruct (check_cases code now r) as [[-> _]|[[e ->]|[-> _]]]; simpl;
      rewrite !live_count_cons;
      rewrite ?live_consume, ?live_count_attempt; destruct (live a' i' r); lia.
  - destruct (verify a i code now s) as [res s']; simpl in *.
    rewrite !live_count_cons. lia.
Qed.

(** A successful [verify] uses up one live record of its pair. *)
Lemma verify_ok_live_count a i code now s s' :
  verify a i code now s = (Ok tt, s') ->
  S (live_count a i s') = live_count a i s.
Proof.
  revert s'. induction s as [|r s IH]; intros s'; [discriminate|]. simpl.
  destruct (live a i r) eqn:Hl.
  - destruct (check_cases code now r) as [[-> _]|[[e ->]|[-> _]]];
      intros [= <-].
    rewrite !live_count_cons, live_consume, Hl. lia.
  - destruct (verify a i code now s) as [res s1]. intros [= -> <-].
    rewrite !live_count_cons, Hl. simpl. by apply IH.
Qed.

Lemma tidy_apply o s : tidy s -> tidy (apply o s).
Proof.
  intros Hs a' i'.
  assert (Hissue : forall a i code slt now,
    (live_count a' i' (snd (issue a i code slt now s)) <= 1)%nat).
  { intros a i code slt now.
    destruct (decide ((a', i') = (a, i))) as [[= -> ->]|Hne].
    - by rewrite issue_live_count.
    - rewrite issue_live_count_other by done. apply Hs. }
  destruct o as [a i code slt now|a i code slt now|a i code now]; simpl.
  - apply Hissue.
  - apply Hissue.
  - etrans; [apply verify_live_count|apply Hs].
Qed.

Lemma tidy_run ops s : tidy s -> tidy (run ops s).
Proof.
  revert s. induction ops as [|o ops IH]; intros s Hs; [done|].
  simpl. apply IH. by apply tidy_apply.
Qed.

Lemma tidy_nil : tidy [].
Proof. intros a i. unfold live_count; simpl. lia. Qed.

Lemma active_le_live a i now s :
  (active_count a i now s <= live_count a i s)%nat.
Proof.
  unfold active_count, live_count.
  induction s as [|r s IH]; [done|]. simpl. unfold active at 1.
  destruct (live a i r); simpl; [|done].
  destruct (negb (past (expires_at r) now)); simpl; lia.
Qed.

(** *** Codes that no live record answers to *)

Lemma quiet_cons a i code r s :
  quiet a i code (r :: s)
  = negb (live a i r && matches code r) && quiet a i code s.
Proof. reflexivity. Qed.

Lemma quiet_app a i code s1 s2 :
  quiet a i code (s1 ++ s2) = quiet a i code s1 && quiet a i code s2.
Proof. unfold quiet. apply forallb_app. Qed.

Lemma quiet_no_live a i code s :
  live_count a i s = 0%nat -> quiet a i code s = true.
Proof.
  induction s as [|r s IH]; [done|].
  rewrite live_count_cons, quiet_cons.
  destruct (live a i r); simpl; [lia|]. intros Hs. by apply IH.
Qed.

Lemma verify_quiet_fails a i code now s :
  quiet a i code s = true -> is_ok (fst (verify a i code now s)) = false.
Proof.
  induction s as [|r s IH]; [done|]. rewrite quiet_cons. simpl.
  destruct (live a i r) eqn:Hl; simpl.
  - intros [Hm _]%andb_true_iff. apply negb_true_iff in Hm.
    destruct (check_cases code now r) as [[_ Hm']|[[e ->]|[-> _]]];
      [congruence|done|done].
  - intros Hq. specialize (IH Hq).
    by destruct (verify a i code now s) as [res s'].
Qed.

Lemma verify_no_live a i code now s :
  live_count a i s = 0%nat -> verify a i code now s = (Err OtpNotFound, s).
Proof.
  induction s as [|r s IH]; [done|]. rewrite live_count_cons. simpl.
  destruct (live a i r); simpl; [lia|]. intros Hs. by rewrite IH.
Qed.

Lemma matches_count_attempt code r :
  matches code (count_attempt r) = matches code r.
Proof. reflexivity. Qed.

Lemma quiet_verify a i code a' i' code' now s :
  quiet a i code s = true ->
  quiet a i code (snd (verify a' i' code' now s)) = true.
Proof.
  induction s as [|r s IH]; [done|]. rewrite quiet_cons.
  intros [Hr Hs]%andb_true_iff. cbn [verify].
  destruct (live a' i' r) eqn:Hl.
  - destruct (check_cases code' now r) as [[-> _]|[[e ->]|[-> _]]];
      cbn [snd]; rewrite quiet_cons, Hs, andb_true_r.
    + by rewrite live_consume.
    + done.
    + by rewrite live_count_attempt, matches_count_attempt.
  - specialize (IH Hs).
    destruct (verify a' i' code' now s) as [res s1]; cbn [snd] in *.
    by rewrite quiet_cons, Hr, IH.
Qed.

Lemma quiet_superseded a i code a' i' s :
  quiet a i code s = true ->
  quiet a i code
    (map (fun r => if for_pair a' i' r then supersede r else r) s) = true.
Proof.
  induction s as [|r s IH]; [done|]. rewrite quiet_cons.
  intros [Hr Hs]%andb_true_iff. cbn [map].
  rewrite quiet_cons, (IH Hs), andb_true_r.
  destruct (for_pair a' i' r); [|done]. by rewrite live_supersede.
Qed.

Lemma quiet_issue a i code a' i' code' slt now s :
  reissues a i code (Issue a' i' code' slt now) = false ->
  quiet a i code s = true ->
  quiet a i code (snd (issue a' i' code' slt now s)) = true.
Proof.
  intros Hre Hs. unfold issue; simpl.
  rewrite quiet_app, quiet_superseded by done. simpl.
  rewrite andb_true_r, live_fresh. unfold matches; simpl.
  simpl in Hre. by rewrite Hre.
Qed.

Lemma quiet_apply a i code o s :
  reissues a i code o = false ->
  quiet a i code s = true -> quiet a i code (apply o s) = true.
Proof.
  destruct o as [a' i' code' slt now|a' i' code' slt now|a' i' code' now];
    intros Hre Hs; simpl.
  - by apply quiet_issue.
  - by apply quiet_issue.
  - by apply quiet_verify.
Qed.

Lemma quiet_run a i code ops s :
  forallb (fun o => negb (reissues a i code o)) ops = true ->
  quiet a i code s = true -> quiet a i code (run ops s) = true.
Proof.
  revert s. induction ops as [|o ops IH]; intros s Hops Hs; [done|].
  simpl in *. apply andb_true_iff in Hops as [Ho Hops].
  apply IH; [done|]. apply quiet_apply; [|done]. by apply negb_true_iff.
Qed.

Lemma no_live_apply a i o s :
  issues_for a i o = false ->
  live_count a i s = 0%nat -> live_count a i (apply o s) = 0%nat.
Proof.
  destruct o as [a' i' code' slt now|a' i' code' slt now|a' i' code' now];
    cbn [apply issues_for]; unfold resend; intros Ho Hs.
  - rewrite issue_live_count_other; [done|]. intros [= -> ->].
    by rewrite !bool_decide_eq_true_2 in Ho.
  - rewrite issue_live_count_other; [done|]. intros [= -> ->].
    by rewrite !bool_decide_eq_true_2 in Ho.
  - pose proof (verify_live_count a' i' code' now a i s). lia.
Qed.

Lemma no_live_run a i ops s :
  forallb (fun o => negb (issues_for a i o)) ops = true ->
  live_count a i s = 0%nat -> live_count a i (run ops s) = 0%nat.
Proof.
  revert s. induction ops as [|o ops IH]; intros s Hops Hs; [done|].
  simpl in *. apply andb_true_iff in Hops as [Ho Hops].
  apply IH; [done|]. apply no_live_apply; [|done]. by apply negb_true_iff.
Qed.

(** A successful [verify] leaves the record it matched marked consumed. *)
Lemma verify_ok_marks a i code now s s' :
  verify a i code now s = (Ok tt, s') ->
  exists r, r ∈ s' /\ for_pair a i r = true /\ consumed r = true
            /\ matches code r = true.
Proof.
  revert s'. induction s as [|r s IH]; intros s'; [discriminate|].
  cbn [verify]. destruct (live a i r) eqn:Hl.
  - destruct (check_cases code now r) as [[-> Hm]|[[e ->]|[-> _]]];
      intros [= <-].
    exists (consume r). split; [apply list_elem_of_here|].
    split; [exact (live_for_pair a i r Hl)|]. split; [reflexivity|exact Hm].
  - destruct (verify a i code now s) as [res s1]. intros [= -> <-].
    destruct (IH s1 eq_refl) as (r0 & Hin & Hr0).
    exists r0. split; [by apply list_elem_of_further|done].
Qed.

(** C5.  Once [verify] has succeeded on the OTP of an (account, intent)
    pair, the OTP is marked consumed and never verifies again: until a new
    OTP is issued for the pair every later [verify], with any code, fails
    with OtpNotFound, and whatever happens later a [verify] with the same
    code fails unless a newly issued OTP for the pair carries that very
    code. *)
Theorem consumed_otp_never_verifies (before : list op) a i (code : string)
    (now : Z) s' :
  verify a i code now (run before []) = (Ok tt, s') ->
  (exists r, r ∈ s' /\ for_pair a i r = true /\ consumed r = true
             /\ matches code r = true)
  /\ (forall later code' now',
      forallb (fun o => negb (issues_for a i o)) later = true ->
      fst (verify a i code' now' (run later s')) = Err OtpNotFound)
  /\ (forall later now',
      forallb (fun o => negb (reissues a i code o)) later = true ->
      is_ok (fst (verify a i code now' (run later s'))) = false).
Proof.
  intros Hok.
  assert (Hnone : live_count a i s' = 0%nat).
  { pose proof (verify_ok_live_count _ _ _ _ _ _ Hok).
    pose proof (tidy_run before [] tidy_nil a i). lia. }
  split; [by eapply verify_ok_marks|]. split.
  - intros later code' now' Hlater.
    rewrite verify_no_live; [done|]. by apply no_live_run.
  - intros later now' Hlater.
    apply verify_quiet_fails, quiet_run; [done|]. by apply quiet_no_live.
Qed.

(** C6.  After any sequence of operations each (account, intent) pair
    has at most one active (unconsumed, unexpired, unsuperseded) OTP.
    Issuing supersedes every earlier record of the pair, and from then on
    a code other than the newly issued one never verifies, unless it is
    itself issued again for the pair. *)
Theorem issue_supersedes_prior (before : list op) a i (now : Z) :
  (active_count a i now (run before []) <= 1)%nat
  /\ (forall code slt at_,
      let s' := snd (issue a i code slt at_ (run before [])) in
      (forall r, r ∈ s' -> for_pair a i r = true ->
                 r = fresh a i code slt at_ \/ superseded r = true)
      /\ (forall old later now',
          otp_hash slt old <> otp_hash slt code ->
          forallb (fun o => negb (reissues a i old o)) later = true ->
          is_ok (fst (verify a i old now' (run later s'))) = false)).
Proof.
  split.
  - etrans; [apply active_le_live|]. apply tidy_run, tidy_nil.
  - intros code slt at_ s'. split.
    + intros r Hr Hp. unfold s', issue in Hr; simpl in Hr.
      apply elem_of_app in Hr as [Hr|Hr].
      * right. apply list_elem_of_fmap in Hr as [r0 [-> _]].
        destruct (for_pair a i r0) eqn:Hp0; [done|].
        by rewrite Hp0 in Hp.
      * left. by apply list_elem_of_singleton in Hr.
    + intros old later now' Hne Hlater.
      apply verify_quiet_fails, quiet_run; [done|].
      unfold s', issue; simpl.
      rewrite quiet_app. apply andb_true_iff. split.
      * apply quiet_no_live, issue_supersedes_pair.
      * simpl. rewrite andb_true_r. unfold matches; simpl.
        apply negb_true_iff, andb_false_iff. right.
        by apply String.eqb_neq.
Qed.

End OtpFacts.

(** ** Session Registry *)

Section SessionFacts.

Import Session.

Lemma isActive_revoke (id : N) (reg : gmap N entry) :
  isActive id (revoke id reg) = false.
Proof.
  unfold isActive, revoke. rewrite lookup_alter_eq.
  by destruct (reg !! id).
Qed.

Lemma isActive_register_ne (a : string) (id id' : N) (now : Z)
    (reg : gmap N entry) :
  id' <> id -> isActive id (register a id' now reg) = isActive id reg.
Proof.
  intros Hne. unfold isActive, register. by rewrite lookup_insert_ne.
Qed.

Lemma isActive_register (a : string) (id : N) (now : Z)
    (reg : gmap N entry) :
  isActive id (register a id now reg) = true.
Proof. unfold isActive, register. by rewrite lookup_insert_eq. Qed.

End SessionFacts.

(** ** Token Service *)

Section TokenFacts.

Import StateErr Token.
Context `{TokenSigner}.

Implicit Types (t : token) (c : claims) (q : request)
  (reg : gmap N Session.entry).

Lemma issuePair_run (a : string) (now : Z) (ids : N * N) reg :
  issuePair a now ids reg
  = (Ok (pair_for a now ids), Session.register a (snd ids) now reg).
Proof. reflexivity. Qed.

Lemma checked_signed c now :
  checked (sign c) now = if past (exp c) now then Err TokenExpired else Ok c.
Proof. unfold checked. by rewrite checkSignature_sign. Qed.

(** *** Two rotations of one refresh token *)

(** Split the cases of where a request stands and drop the impossible
    ones. *)
Ltac phases :=
  repeat match goal with
    | Hp : _ \/ _ |- _ => destruct Hp as [Hp|Hp]
    | Hp : ex _ |- _ => destruct Hp as [? Hp]
    | Hp : _ /\ _ |- _ => destruct Hp as [? ?]
    | Hp : Verified _ = Verified _ |- _ => injection Hp as ->
    | Hp : Claimed _ = Claimed _ |- _ => injection Hp as ->
    | Hp : @eq progress _ _ |- _ => discriminate Hp
    end.

Lemma entitled_moved t c q p :
  entitled t c q -> entitled t c (moved q p).
Proof. done. Qed.

Lemma step_remaining q reg :
  (remaining (fst (step q reg)) <= pred (remaining q))%nat.
Proof.
  unfold step, remaining.
  destruct (at_step q) as [|c|c|r] eqn:Hat; simpl.
  - destruct (checked (presented q) (clock q)); simpl; lia.
  - destruct (claim c reg) as [[[]|e] reg']; simpl; lia.
  - lia.
  - rewrite Hat. lia.
Qed.

Lemma interleave_remaining sched q1 q2 reg :
  let '(q1', q2', _) := interleave sched q1 q2 reg in
  (remaining q1' <= remaining q1 - turns true sched)%nat
  /\ (remaining q2' <= remaining q2 - turns false sched)%nat.
Proof.
  revert q1 q2 reg.
  induction sched as [|[|] sched IH]; intros q1 q2 reg; simpl.
  - lia.
  - pose proof (step_remaining q1 reg) as Hs.
    destruct (step q1 reg) as [q1' reg']; simpl in Hs.
    specialize (IH q1' q2 reg').
    destruct (interleave sched q1' q2 reg') as [[q1'' q2''] reg''].
    lia.
  - pose proof (step_remaining q2 reg) as Hs.
    destruct (step q2 reg) as [q2' reg']; simpl in Hs.
    specialize (IH q1 q2' reg').
    destruct (interleave sched q1 q2' reg') as [[q1'' q2''] reg''].
    lia.
Qed.

Lemma remaining_outcome q :
  remaining q = 0%nat -> exists r, outcome q = Some r.
Proof.
  unfold remaining, outcome. destruct (at_step q); try discriminate. eauto.
Qed.

Lemma holds_inactive c reg0 q reg :
  snd (fresh_ids q) <> jti c ->
  holds c reg0 q reg -> Session.isActive (jti c) reg = false.
Proof.
  intros Hid [[_ ->]|[_ ->]].
  - apply isActive_revoke.
  - rewrite isActive_register_ne by done. apply isActive_revoke.
Qed.

(** What one step does to a request that presented the token, by where
    the request stands and what the registry holds. *)
Lemma step_entitled t c reg0 q q' reg reg' :
  checkSignature t = Some c ->
  Session.isActive (jti c) reg0 = true ->
  entitled t c q -> step q reg = (q', reg') ->
  entitled t c q'
  /\ (early c q -> reg = reg0 ->
        (early c q' /\ reg' = reg0) \/ holds c reg0 q' reg')
  /\ (early c q -> Session.isActive (jti c) reg = false ->
        (early c q' \/ lost q') /\ reg' = reg)
  /\ (holds c reg0 q reg -> holds c reg0 q' reg')
  /\ (lost q -> q' = q /\ reg' = reg).
Proof.
  intros Hsig Hact0 (Ht & Hexp & Hid) Hstep.
  assert (Hchk : checked (presented q) (clock q) = Ok c).
  { unfold checked. by rewrite Ht, Hsig, Hexp. }
  unfold step in Hstep. unfold early, holds, lost.
  destruct (at_step q) as [|c0|c0|r] eqn:Hat.
  - rewrite Hchk in Hstep. injection Hstep as <- <-.
    split; [done|]. simpl. repeat split; intros; phases; eauto 8.
  - unfold claim in Hstep.
    destruct (Session.isActive (jti c0) reg) eqn:Hact;
      injection Hstep as <- <-; (split; [done|]); simpl;
      repeat split; intros; phases; subst; eauto 8; congruence.
  - rewrite issuePair_run in Hstep. injection Hstep as <- <-.
    split; [done|]. simpl. repeat split; intros; phases; subst; eauto 8.
  - injection Hstep as <- <-. split; [done|]. rewrite Hat.
    repeat split; intros; phases; eauto 8.
Qed.

Lemma racing_sym t c reg0 q1 q2 reg :
  racing t c reg0 q1 q2 reg -> racing t c reg0 q2 q1 reg.
Proof. unfold racing. tauto. Qed.

Lemma racing_step t c reg0 q1 q1' q2 reg reg' :
  checkSignature t = Some c ->
  Session.isActive (jti c) reg0 = true ->
  racing t c reg0 q1 q2 reg -> step q1 reg = (q1', reg') ->
  racing t c reg0 q1' q2 reg'.
Proof.
  intros Hsig Hact0 (H1 & H2 & Hcases) Hstep.
  destruct (step_entitled t c reg0 q1 q1' reg reg' Hsig Hact0 H1 Hstep)
    as (H1' & Hea & Hei & Hw & Hl).
  split; [done|]. split; [done|].
  destruct Hcases as [(-> & He1 & He2)|[[Hw1 H2']|[Hw2 H1'']]].
  - destruct (Hea He1 eq_refl) as [[? ->]|?]; auto.
  - right. left. auto.
  - right. right.
    assert (Hact : Session.isActive (jti c) reg = false).
    { eapply holds_inactive; [|done]. apply H2. }
    destruct H1'' as [He1|Hl1].
    + destruct (Hei He1 Hact) as [? ->]. auto.
    + destruct (Hl Hl1) as [-> ->]. auto.
Qed.

Lemma racing_interleave t c reg0 sched q1 q2 reg :
  checkSignature t = Some c ->
  Session.isActive (jti c) reg0 = true ->
  racing t c reg0 q1 q2 reg ->
  let '(q1', q2', reg') := interleave sched q1 q2 reg in
  racing t c reg0 q1' q2' reg'.
Proof.
  intros Hsig Hact0. revert q1 q2 reg.
  induction sched as [|[|] sched IH]; intros q1 q2 reg Hrace; simpl.
  - done.
  - destruct (step q1 reg) as [q1' reg'] eqn:Hstep.
    apply IH. by eapply racing_step.
  - destruct (step q2 reg) as [q2' reg'] eqn:Hstep.
    apply IH. apply racing_sym. eapply racing_step; [done|done| |done].
    by apply racing_sym.
Qed.

(** The fields a request was submitted with stay as they are. *)
Lemma step_fields q reg :
  presented (fst (step q reg)) = presented q
  /\ clock (fst (step q reg)) = clock q
  /\ fresh_ids (fst (step q reg)) = fresh_ids q.
Proof.
  unfold step. destruct (at_step q) as [|c|c|r]; simpl.
  - by destruct (checked (presented q) (clock q)).
  - by destruct (claim c reg) as [[[]|e] reg'].
  - done.
  - done.
Qed.

Lemma interleave_fields sched q1 q2 reg :
  let '(q1', q2', _) := interleave sched q1 q2 reg in
  (clock q1' = clock q1 /\ fresh_ids q1' = fresh_ids q1)
  /\ (clock q2' = clock q2 /\ fresh_ids q2' = fresh_ids q2).
Proof.
  revert q1 q2 reg.
  induction sched as [|[|] sched IH]; intros q1 q2 reg; simpl; [done| |].
  - pose proof (step_fields q1 reg) as (_ & Hc & Hi).
    destruct (step q1 reg) as [q1' reg']; simpl in *.
    specialize (IH q1' q2 reg').
    destruct (interleave sched q1' q2 reg') as [[q1'' q2''] reg''].
    by rewrite <- Hc, <- Hi.
  - pose proof (step_fields q2 reg) as (_ & Hc & Hi).
    destruct (step q2 reg) as [q2' reg']; simpl in *.
    specialize (IH q1 q2' reg').
    destruct (interleave sched q1 q2' reg') as [[q1'' q2''] reg''].
    by rewrite <- Hc, <- Hi.
Qed.

Lemma racing_finished t c reg0 q1 q2 reg r1 r2 :
  racing t c reg0 q1 q2 reg ->
  outcome q1 = Some r1 -> outcome q2 = Some r2 ->
  settled c reg0 q1 q2 r1 r2 reg \/ settled c reg0 q2 q1 r2 r1 reg.
Proof.
  unfold racing, early, holds, lost, outcome, settled.
  intros (_ & _ & Hcases) Ho1 Ho2.
  destruct (at_step q1) as [| | |r1'] eqn:Hq1; try discriminate.
  destruct (at_step q2) as [| | |r2'] eqn:Hq2; try discriminate.
  injection Ho1 as <-. injection Ho2 as <-.
  destruct Hcases as [(_ & [?|?] & _)|Hcases]; try discriminate.
  destruct Hcases as [[[[? _]|[[= ->] ->]] [[?|?]|[= ->]]]
                     |[[[? _]|[[= ->] ->]] [[?|?]|[= ->]]]];
    try discriminate; auto.
Qed.

Lemma rotate_run t c (now : Z) (ids : N * N) reg :
  checkSignature t = Some c -> past (exp c) now = false ->
  rotate t now ids reg
  = if Session.isActive (jti c) reg
    then (Ok (pair_for (sub c) now ids),
          Session.register (sub c) (snd ids) now
            (Session.revoke (jti c) reg))
    else (Err TokenRevoked, reg).
Proof.
  intros Hsig Hexp.
  unfold rotate, checked, claim, mbind, staterr_bind, bind, pure.
  rewrite Hsig, Hexp. by destruct (Session.isActive (jti c) reg).
Qed.

(** C4.  Two rotations of the same valid refresh token, started on a
    registry in which its identifier is active and each bringing a new
    refresh-token identifier, end the same way under every interleaving
    of their steps that lets both finish: exactly one succeeds with a new
    pair for the same account, the other fails with TokenRevoked, and the
    registry holds the old identifier revoked and the winner's new one
    registered.  In particular, run one after the other, the first
    rotation succeeds and the second fails with TokenRevoked. *)
Theorem rotate_twice_one_success t c (now1 now2 : Z) (ids1 ids2 : N * N)
    reg (sched : list turn) :
  checkSignature t = Some c ->
  past (exp c) now1 = false -> past (exp c) now2 = false ->
  Session.isActive (jti c) reg = true ->
  snd ids1 <> jti c -> snd ids2 <> jti c ->
  (3 <= turns true sched)%nat -> (3 <= turns false sched)%nat ->
  (let q1 := submit t now1 ids1 in
   let q2 := submit t now2 ids2 in
   let '(q1', q2', reg') := interleave sched q1 q2 reg in
   exists r1 r2,
     outcome q1' = Some r1 /\ outcome q2' = Some r2
     /\ (settled c reg q1 q2 r1 r2 reg' \/ settled c reg q2 q1 r2 r1 reg'))
  /\ (let reg1 := Session.register (sub c) (snd ids1) now1
                    (Session.revoke (jti c) reg) in
      rotate t now1 ids1 reg = (Ok (pair_for (sub c) now1 ids1), reg1)
      /\ rotate t now2 ids2 reg1 = (Err TokenRevoked, reg1)).
Proof.
  intros Hsig Hexp1 Hexp2 Hact Hid1 Hid2 Hturns1 Hturns2. split.
  - intros q1 q2.
    assert (Hrace : racing t c reg q1 q2 reg).
    { unfold racing, entitled, early. simpl. auto 10. }
    pose proof (racing_interleave t c reg sched q1 q2 reg Hsig Hact Hrace)
      as Hend.
    pose proof (interleave_remaining sched q1 q2 reg) as Hrem.
    pose proof (interleave_fields sched q1 q2 reg) as Hfields.
    destruct (interleave sched q1 q2 reg) as [[q1' q2'] reg'].
    destruct Hrem as [Hrem1 Hrem2].
    destruct (remaining_outcome q1') as [r1 Hr1];
      [unfold remaining in Hrem1 at 2; simpl in Hrem1; lia|].
    destruct (remaining_outcome q2') as [r2 Hr2];
      [unfold remaining in Hrem2 at 2; simpl in Hrem2; lia|].
    exists r1, r2. split; [done|]. split; [done|].
    destruct Hfields as [[Hc1 Hi1] [Hc2 Hi2]].
    destruct (racing_finished t c reg q1' q2' reg' r1 r2 Hend Hr1 Hr2)
      as [Hs|Hs]; [left|right]; unfold settled in *.
    + by rewrite <- Hc1, <- Hi1.
    + by rewrite <- Hc2, <- Hi2.
  - intros reg1. split.
    + by rewrite (rotate_run t c) by done; rewrite Hact.
    + rewrite (rotate_run t c) by done.
      assert (Session.isActive (jti c) reg1 = false) as ->; [|done].
      unfold reg1. rewrite isActive_register_ne by done.
      apply isActive_revoke.
Qed.

End TokenFacts.

(** ** Auth Orchestrator *)

Section AuthFacts.

Import StateErr Auth.
Context `{OtpHasher} `{PasswordHasher} `{TokenSigner}.

Implicit Types (st : state) (acct : Credential.account).

Lemma find_without (id : string) st :
  Credential.find id (accounts (without id st)) = None.
Proof. unfold Credential.find, without; simpl. apply lookup_delete_eq. Qed.

Lemma login_unknown (id password : string) (now : Z) (ids : N * N) st :
  Credential.find id (accounts st) = None ->
  login id password now ids st = (Err InvalidCredentials, st).
Proof.
  intros Hfind. unfold login, mbind, staterr_bind, bind, get.
  by rewrite Hfind.
Qed.

Lemma login_known (id password : string) (now : Z) (ids : N * N) st acct :
  Credential.find id (accounts st) = Some acct ->
  login id password now ids st
  = if negb (Credential.verified acct) then (Err AccountNotVerified, st)
    else if negb (Credential.hashMatches acct password)
         then (Err InvalidCredentials, st)
    else (Ok {| tokens := Token.pair_for (Credential.identifier acct) now ids;
                user := Credential.details acct |},
          {| accounts := accounts st; otps := otps st;
             sessions := Session.register (Credential.identifier acct)
                           (snd ids) now (sessions st);
             outbox := outbox st |}).
Proof.
  intros Hfind. unfold login, mbind, staterr_bind, bind, get.
  rewrite Hfind.
  destruct (Credential.verified acct); simpl; [|done].
  by destruct (Credential.hashMatches acct password).
Qed.

Lemma forgotPassword_response (id code slt : string) (now : Z) st :
  fst (forgotPassword id code slt now st) = Ok tt.
Proof.
  unfold forgotPassword, mbind, staterr_bind, bind, get.
  by destruct (Credential.find id (accounts st)).
Qed.

(** C7 (amended).  The forgot-password flow answers the same whether or
    not the account exists.  The login flow answers an unknown identifier
    with InvalidCredentials, and an existing account gets that same
    answer exactly when it is verified and the submitted password does
    not match. *)
Theorem enumeration_resistance (id password code slt : string) (now : Z)
    (ids : N * N) st acct :
  Credential.find id (accounts st) = Some acct ->
  forgotPassword_hides_account id code slt now st
  /\ fst (login id password now ids (without id st)) = Err InvalidCredentials
  /\ (login_hides_account id password now ids st
      <-> Credential.verified acct = true
          /\ Credential.hashMatches acct password = false).
Proof.
  intros Hfind. split; [|split].
  - unfold forgotPassword_hides_account.
    by rewrite !forgotPassword_response.
  - by rewrite login_unknown by apply find_without.
  - unfold login_hides_account.
    rewrite (login_unknown id _ _ _ (without id st)) by apply find_without.
    rewrite (login_known id _ _ _ st acct Hfind).
    destruct (Credential.verified acct),
             (Credential.hashMatches acct password); simpl;
      split; try done; intros [? ?]; done.
Qed.

(** C3.  Every token pair the Token Service issues carries an access
    token that expires 15 minutes after it was issued and a refresh token
    that expires 7 days after, is of type "Bearer" and reports these TTLs
    as expiresIn "15m" and refreshExpiresIn "7d"; a successful login
    returns such a pair, and the documentation object of the server
    describes the login response with the same three values. *)
Theorem token_pair_ttls (a : string) (now : Z) (ids : N * N)
    (reg : gmap N Session.entry) (cfg : Server.config) (now_iso : string) :
  (exists p access refresh,
      fst (Token.issuePair a now ids reg) = Ok p
      /\ checkSignature (Token.accessToken p) = Some access
      /\ checkSignature (Token.refreshToken p) = Some refresh
      /\ sub access = a /\ sub refresh = a
      /\ exp access - iat access = 15 * 60
      /\ exp refresh - iat refresh = 7 * 24 * 60 * 60
      /\ Token.tokenType p = "Bearer"%string
      /\ Token.expiresIn p = "15m"%string
      /\ Token.refreshExpiresIn p = "7d"%string
      /\ Token.duration (Token.expiresIn p) = Some (exp access - iat access)
      /\ Token.duration (Token.refreshExpiresIn p)
         = Some (exp refresh - iat refresh))
  /\ (forall id password st acct,
        Credential.find id (accounts st) = Some acct ->
        Credential.verified acct = true ->
        Credential.hashMatches acct password = true ->
        exists payload,
          fst (login id password now ids st) = Ok payload
          /\ Ok (tokens payload)
             = fst (Token.issuePair (Credential.identifier acct) now ids
                      (sessions st)))
  /\ (forall t c,
        checkSignature t = Some c -> past (exp c) now = false ->
        Session.isActive (jti c) reg = true ->
        fst (Token.rotate t now ids reg)
        = fst (Token.issuePair (sub c) now ids reg))
  /\ (exists doc,
        Server.prop "login"
          (Server.endpoints (Server.apiDocumentation cfg now_iso))
        = Some doc
        /\ Server.prop "tokenType" (Server.response doc)
           = Some "Bearer"%string
        /\ Server.prop "expiresIn" (Server.response doc)
           = Some "15m"%string
        /\ Server.prop "refreshExpiresIn" (Server.response doc)
           = Some "7d"%string
        /\ "Access Token (15min expiry)"%string
           ∈ Server.features
               (Server.authentication (Server.apiDocumentation cfg now_iso))
        /\ "Refresh Token (7 days expiry)"%string
           ∈ Server.features
               (Server.authentication (Server.apiDocumentation cfg now_iso))).
Proof.
  split; [|split; [|split]].
  - exists (Token.pair_for a now ids), (Token.accessClaims a now (fst ids)),
      (Token.refreshClaims a now (snd ids)).
    simpl. rewrite !checkSignature_sign.
    unfold Token.ACCESS_TTL, Token.REFRESH_TTL.
    repeat split; try reflexivity; try lia.
    + replace (now + 15 * 60 - now) with 900 by lia. reflexivity.
    + replace (now + 7 * 24 * 60 * 60 - now) with 604800 by lia.
      reflexivity.
  - intros id password st acct Hfind Hver Hpw.
    rewrite (login_known id _ _ _ st acct Hfind), Hver, Hpw. simpl.
    eexists. split; reflexivity.
  - intros t c Hsig Hexp Hact.
    by rewrite (rotate_run t c) by done; rewrite Hact.
  - eexists. repeat split; try reflexivity; simpl; set_solver.
Qed.

End AuthFacts.

(** ** The properties at work on concrete inputs *)

Section Examples.

Import Demo.
#[local] Existing Instance otpHasher.
#[local] Existing Instance passwordHasher.
#[local] Existing Instance tokenSigner.

(** The issued code verifies once; afterwards the same code is refused,
    also after a failed attempt with another code. *)
Lemma consumed_otp_never_verifies_witness :
  let s' := snd (Otp.verify "a@x.com" Otp.Register "123456" 10
                   (Otp.run issued_once [])) in
  (exists r, r ∈ s' /\ Otp.for_pair "a@x.com" Otp.Register r = true
             /\ Otp.consumed r = true /\ Otp.matches "123456" r = true)
  /\ (forall later code' now',
      forallb (fun o => negb (Otp.issues_for "a@x.com" Otp.Register o))
        later = true ->
      fst (Otp.verify "a@x.com" Otp.Register code' now' (Otp.run later s'))
      = Err OtpNotFound)
  /\ (forall later now',
      forallb
        (fun o => negb (Otp.reissues "a@x.com" Otp.Register "123456" o))
        later = true ->
      is_ok (fst (Otp.verify "a@x.com" Otp.Register "123456" now'
                    (Otp.run later s'))) = false).
Proof.
  intros s'.
  apply (consumed_otp_never_verifies issued_once "a@x.com" Otp.Register
           "123456" 10 s').
  vm_compute. reflexivity.
Defined.

(** Two requests presenting [token7] under [schedule]. *)
Lemma rotate_twice_one_success_witness :
  (let q1 := Token.submit token7 10 (100%N, 101%N) in
   let q2 := Token.submit token7 11 (200%N, 201%N) in
   let '(q1', q2', reg') := Token.interleave schedule q1 q2 registry7 in
   exists r1 r2,
     Token.outcome q1' = Some r1 /\ Token.outcome q2' = Some r2
     /\ (Token.settled refresh7 registry7 q1 q2 r1 r2 reg'
         \/ Token.settled refresh7 registry7 q2 q1 r2 r1 reg'))
  /\ (let reg1 := Session.register (sub refresh7) 101 10
                    (Session.revoke (jti refresh7) registry7) in
      Token.rotate token7 10 (100%N, 101%N) registry7
      = (Ok (Token.pair_for (sub refresh7) 10 (100%N, 101%N)), reg1)
      /\ Token.rotate token7 11 (200%N, 201%N) reg1
         = (Err TokenRevoked, reg1)).
Proof.
  apply (rotate_twice_one_success token7 refresh7 10 11 (100%N, 101%N)
           (200%N, 201%N) registry7 schedule).
  - reflexivity.
  - reflexivity.
  - reflexivity.
  - vm_compute. reflexivity.
  - simpl. lia.
  - simpl. lia.
  - simpl. lia.
  - simpl. lia.
Defined.

(** A login with the right password succeeds for the account and fails
    without it. *)
Lemma login_success_reveals_account :
  ~ Auth.login_hides_account "a@x.com" "pw" 0 (1%N, 2%N) one_account.
Proof. unfold Auth.login_hides_account. vm_compute. discriminate. Qed.

(** A login with a wrong password gets the answer of an unknown
    account. *)
Lemma enumeration_resistance_witness :
  Auth.forgotPassword_hides_account "a@x.com" "654321" "s3" 5 one_account
  /\ fst (Auth.login "a@x.com" "guess" 5 (1%N, 2%N)
            (Auth.without "a@x.com" one_account))
     = Err InvalidCredentials
  /\ (Auth.login_hides_account "a@x.com" "guess" 5 (1%N, 2%N) one_account
      <-> Credential.verified alice = true
          /\ Credential.hashMatches alice "guess" = false).
Proof.
  apply (enumeration_resistance "a@x.com" "guess" "654321" "s3" 5
           (1%N, 2%N) one_account alice).
  vm_compute. reflexivity.
Defined.

(** The account logs in with its password and gets a pair with the
    documented TTLs; rotating [token7] gives the pair issued for its
    account. *)
Lemma token_pair_ttls_witness :
  (exists payload,
      fst (Auth.login "a@x.com" "pw" 5 (1%N, 2%N) one_account) = Ok payload
      /\ Ok (Auth.tokens payload)
         = fst (Token.issuePair (Credential.identifier alice) 5 (1%N, 2%N)
                  (Auth.sessions one_account)))
  /\ fst (Token.rotate token7 5 (1%N, 2%N) registry7)
     = fst (Token.issuePair (sub refresh7) 5 (1%N, 2%N) registry7).
Proof.
  destruct (token_pair_ttls "a@x.com" 5 (1%N, 2%N) registry7 Contract.sample_config
              "2024-01-01T00:00:00.000Z") as (_ & Hlogin & Hrotate & _).
  split.
  - apply (Hlogin "a@x.com" "pw" one_account alice); vm_compute; reflexivity.
  - apply (Hrotate token7 refresh7); vm_compute; reflexivity.
Defined.

(** A second registration code replaces the first: the first no longer
    verifies, whatever is tried with the second. *)
Lemma issue_supersedes_prior_witness :
  let s' := snd (Otp.issue "a@x.com" Otp.Register "222222" "s4" 30
                   (Otp.run issued_once [])) in
  (Otp.active_count "a@x.com" Otp.Register 40 (Otp.run issued_once []) <= 1)%nat
  /\ is_ok (fst (Otp.verify "a@x.com" Otp.Register "123456" 50
                   (Otp.run [Otp.Verify "a@x.com" Otp.Register "000000" 45]
                      s'))) = false.
Proof.
  intros s'.
  destruct (issue_supersedes_prior issued_once "a@x.com" Otp.Register 40)
    as [Hone Hissue].
  split; [exact Hone|].
  destruct (Hissue "222222"%string "s4"%string 30) as [_ Hold].
  apply Hold.
  - vm_compute. discriminate.
  - vm_compute. reflexivity.
Defined.

End Examples.

(** ** The allow-list as a string *)

Section OriginFacts.

Import Server Origins.

Implicit Types (s t : ustring) (c : N).

(** *** Trimming *)

Lemma trimStart_clean s : starts_clean (trimStart s) = true.
Proof.
  induction s as [|c s IH]; [done|]. simpl.
  destruct (is_white_space c) eqn:Hc; [done|]. simpl. by rewrite Hc.
Qed.

Lemma trimStart_id s : starts_clean s = true -> trimStart s = s.
Proof.
  destruct s as [|c s]; [done|]. simpl.
  by destruct (is_white_space c).
Qed.

Lemma trimStart_white s t :
  all_white s = true -> trimStart (s ++ t) = trimStart t.
Proof.
  induction s as [|c s IH]; [done|]. simpl.
  intros [-> Hs]%andb_true_iff. by apply IH.
Qed.

Lemma trimStart_all_white s : all_white s = true -> trimStart s = [].
Proof.
  intros Hs. rewrite <- (app_nil_r s). by rewrite trimStart_white.
Qed.

(** What [trimStart] drops is white space. *)
Lemma trimStart_split s :
  exists ws, s = ws ++ trimStart s /\ all_white ws = true.
Proof.
  induction s as [|c s (ws & Hs & Hws)]; [by exists []|]. simpl.
  destruct (is_white_space c) eqn:Hc.
  - exists (c :: ws). simpl. rewrite Hc, Hws. by rewrite <- Hs.
  - by exists [].
Qed.

Lemma all_white_rev s : all_white (rev s) = all_white s.
Proof.
  unfold all_white. induction s as [|c s IH]; [done|]. simpl.
  rewrite forallb_app, IH. simpl. by rewrite andb_true_r, andb_comm.
Qed.

Lemma trimEnd_split s :
  exists ws, s = trimEnd s ++ ws /\ all_white ws = true.
Proof.
  destruct (trimStart_split (rev s)) as (ws & Hs & Hws).
  exists (rev ws). split; [|by rewrite all_white_rev].
  unfold trimEnd. rewrite <- rev_app_distr, <- Hs. by rewrite rev_involutive.
Qed.

Lemma trimEnd_clean s : ends_clean (trimEnd s) = true.
Proof.
  unfold ends_clean, trimEnd. rewrite rev_involutive. apply trimStart_clean.
Qed.

Lemma trimEnd_id s : ends_clean s = true -> trimEnd s = s.
Proof.
  unfold ends_clean, trimEnd. intros Hs.
  by rewrite trimStart_id, rev_involutive.
Qed.

Lemma trimEnd_white s t :
  all_white t = true -> trimEnd (s ++ t) = trimEnd s.
Proof.
  intros Ht. unfold trimEnd. rewrite rev_app_distr.
  by rewrite trimStart_white by by rewrite all_white_rev.
Qed.

(** Trimming the end keeps a clean start. *)
Lemma trimEnd_starts_clean s :
  starts_clean s = true -> starts_clean (trimEnd s) = true.
Proof.
  intros Hs. destruct (trimEnd_split s) as (ws & Heq & Hws).
  destruct (trimEnd s) as [|c s'] eqn:Ht; [done|].
  rewrite Heq in Hs. exact Hs.
Qed.

Lemma trim_clean s :
  starts_clean (trim s) = true /\ ends_clean (trim s) = true.
Proof.
  unfold trim. split; [|apply trimEnd_clean].
  apply trimEnd_starts_clean, trimStart_clean.
Qed.

Lemma trim_id s :
  starts_clean s = true -> ends_clean s = true -> trim s = s.
Proof.
  intros Hs He. unfold trim. by rewrite trimStart_id, trimEnd_id.
Qed.

Lemma trim_trim s : trim (trim s) = trim s.
Proof. destruct (trim_clean s). by apply trim_id. Qed.

Lemma trim_all_white s : all_white s = true -> trim s = [].
Proof. intros Hs. unfold trim. by rewrite trimStart_all_white. Qed.

Lemma trimmed_clean s :
  trim s = s -> starts_clean s = true /\ ends_clean s = true.
Proof. intros <-. apply trim_clean. Qed.

(** White space around a trimmed string is trimmed away. *)
Lemma trim_written s ws1 ws2 :
  all_white ws1 = true -> all_white ws2 = true -> trim s = s ->
  trim (ws1 ++ s ++ ws2) = s.
Proof.
  intros H1 H2 Hs. destruct (trimmed_clean s Hs) as [Hstart Hend].
  unfold trim. rewrite trimStart_white by done.
  destruct s as [|c s].
  - simpl. by rewrite trimStart_all_white.
  - rewrite trimStart_id by done.
    rewrite trimEnd_white by done. by apply trimEnd_id.
Qed.

(** What is left after trimming was in the string. *)
Lemma trim_subset s c : c ∈ trim s -> c ∈ s.
Proof.
  intros Hc. unfold trim in Hc.
  destruct (trimStart_split s) as (ws1 & Hs1 & _).
  destruct (trimEnd_split (trimStart s)) as (ws2 & Hs2 & _).
  rewrite Hs1, Hs2. set_solver.
Qed.

(** *** Splitting *)

Lemma split_nonempty (sep : N) s : split sep s <> [].
Proof.
  destruct s as [|c s]; [done|]. simpl.
  destruct (c =? sep)%N; [done|]. by destruct (split sep s).
Qed.

Lemma split_cons_other (sep : N) c s :
  c <> sep ->
  exists piece pieces,
    split sep s = piece :: pieces
    /\ split sep (c :: s) = (c :: piece) :: pieces.
Proof.
  intros Hc. simpl. apply N.eqb_neq in Hc. rewrite Hc.
  destruct (split sep s) as [|piece pieces] eqn:Hs.
  - by destruct (split_nonempty sep s).
  - eauto.
Qed.

(** A comma ends a piece: splitting distributes over it. *)
Lemma split_app (sep : N) s t :
  split sep (s ++ sep :: t) = split sep s ++ split sep t.
Proof.
  induction s as [|c s IH].
  - simpl. by rewrite N.eqb_refl.
  - destruct (decide (c = sep)) as [->|Hc].
    + simpl. rewrite N.eqb_refl. by rewrite IH.
    + destruct (split_cons_other sep c s Hc) as (p & ps & Hs & ->).
      destruct (split_cons_other sep c (s ++ sep :: t) Hc)
        as (p' & ps' & Hs' & Heq).
      rewrite <- app_comm_cons, Heq. rewrite IH, Hs in Hs'.
      by injection Hs' as <- <-.
Qed.

Lemma split_whole (sep : N) s : sep ∉ s -> split sep s = [s].
Proof.
  induction s as [|c s IH]; [done|].
  intros [Hc Hs]%not_elem_of_cons. simpl.
  apply not_eq_sym, N.eqb_neq in Hc. by rewrite Hc, IH.
Qed.

Lemma split_join (sep : N) (pieces : list ustring) :
  pieces <> [] -> Forall (fun piece => sep ∉ piece) pieces ->
  split sep (join sep pieces) = pieces.
Proof.
  induction pieces as [|piece rest IH]; [done|]. intros _ Hall.
  apply Forall_cons in Hall as [Hp Hrest].
  destruct rest as [|piece' rest'].
  - simpl. by apply split_whole.
  - change (join sep (piece :: piece' :: rest'))
      with (piece ++ sep :: join sep (piece' :: rest')).
    rewrite split_app, split_whole by done. simpl. f_equal.
    by apply IH.
Qed.

(** No piece holds the separator, and every piece is made of characters
    of the string. *)
Lemma split_pieces (sep : N) s piece :
  piece ∈ split sep s -> (sep ∉ piece) /\ (forall c, c ∈ piece -> c ∈ s).
Proof.
  revert piece. induction s as [|c s IH]; intros piece.
  - simpl. intros ->%list_elem_of_singleton. split; set_solver.
  - destruct (decide (c = sep)) as [->|Hc].
    + simpl. rewrite N.eqb_refl.
      intros [->|Hin]%elem_of_cons.
      * split; set_solver.
      * destruct (IH _ Hin) as [Hsep Hsub]. split; [done|].
        intros c' Hc'. apply list_elem_of_further. by apply Hsub.
    + destruct (split_cons_other sep c s Hc) as (p & ps & Hs & ->).
      rewrite Hs in IH.
      intros [->|Hin]%elem_of_cons.
      * destruct (IH p (list_elem_of_here _ _)) as [Hsep Hsub]. split.
        -- intros [?|?]%elem_of_cons; [by subst|done].
        -- intros c' [->|Hc']%elem_of_cons; [apply list_elem_of_here|].
           apply list_elem_of_further. by apply Hsub.
      * destruct (IH piece (list_elem_of_further _ _ _ Hin))
          as [Hsep Hsub].
        split; [done|]. intros c' Hc'.
        apply list_elem_of_further. by apply Hsub.
Qed.

Lemma comma_not_white : is_white_space comma = false.
Proof. reflexivity. Qed.

Lemma all_white_no_comma s : all_white s = true -> comma ∉ s.
Proof.
  intros Hs Hin. unfold all_white in Hs.
  rewrite forallb_forall in Hs. apply list_elem_of_In in Hin.
  specialize (Hs _ Hin). by rewrite comma_not_white in Hs.
Qed.

(** *** The allow-list in force *)

Lemma allowedOrigins_setting v env :
  v <> [] ->
  allowedOrigins (setting v env) = map trim (split comma v).
Proof.
  intros Hv. unfold allowedOrigins, setting.
  rewrite lookup_insert_eq. by destruct v.
Qed.

Lemma defaultOrigins_clean :
  Forall (fun o => trim o = o /\ comma ∉ o) defaultOrigins.
Proof.
  unfold defaultOrigins. simpl.
  repeat (apply Forall_cons; split;
          [split; [reflexivity
                  |apply (bool_decide_eq_false_1 (comma ∈ _));
                   vm_compute; reflexivity]|]).
  apply Forall_nil_2.
Qed.

Lemma allowedOrigins_clean env :
  Forall (fun o => trim o = o /\ comma ∉ o) (allowedOrigins env).
Proof.
  unfold allowedOrigins.
  destruct (truthy (env !! "ALLOWED_ORIGINS"%string));
    [|apply defaultOrigins_clean].
  apply Forall_forall. intros o Ho.
  apply list_elem_of_fmap in Ho as (piece & -> & Hpiece).
  split; [apply trim_trim|].
  destruct (split_pieces _ _ _ Hpiece) as [Hsep _].
  intros Hin. by apply Hsep, trim_subset.
Qed.

Lemma corsOrigin_outside env c s :
  (c :: s) ∉ allowedOrigins env ->
  fst (corsOrigin env (Some (c :: s))) = Failed "Not allowed by CORS".
Proof.
  intros Hout. unfold corsOrigin. simpl.
  by rewrite (proj2 (includes_false _ _) Hout).
Qed.

Lemma corsOrigin_rejects env s :
  s <> [] -> s ∉ allowedOrigins env ->
  fst (corsOrigin env (Some s)) = Failed "Not allowed by CORS".
Proof. destruct s as [|c s]; [done|]. intros _. apply corsOrigin_outside. Qed.

Lemma corsOrigin_accepts env s :
  fst (corsOrigin env (Some s)) = Allowed <-> s = [] \/ s ∈ allowedOrigins env.
Proof.
  destruct s as [|c s].
  - split; [by left|done].
  - unfold corsOrigin. simpl.
    destruct (includes (allowedOrigins env) (c :: s)) eqn:Hin; simpl.
    + apply includes_true in Hin. split; [by right|done].
    + apply includes_false in Hin. split; [done|]. by intros [?|?].
Qed.

(** X1.  Every entry of the allow-list in force is trimmed, whatever
    [ALLOWED_ORIGINS] holds; so a non-empty origin that begins or ends
    with white space is always refused. *)
Theorem allowedOrigins_trimmed env c s :
  Forall (fun o => trim o = o) (allowedOrigins env)
  /\ (is_white_space c = true ->
      fst (corsOrigin env (Some (c :: s))) = Failed "Not allowed by CORS")
  /\ (is_white_space c = true ->
      fst (corsOrigin env (Some (s ++ [c]))) = Failed "Not allowed by CORS").
Proof.
  pose proof (allowedOrigins_clean env) as Hclean.
  rewrite Forall_forall in Hclean. split; [|split].
  - apply Forall_forall. intros o Ho. by apply Hclean.
  - intros Hc. apply corsOrigin_outside. intros Hin.
    destruct (Hclean _ Hin) as [Htrim _].
    apply trimmed_clean in Htrim as [Hstart _]. simpl in Hstart.
    by rewrite Hc in Hstart.
  - intros Hc. apply corsOrigin_rejects; [by destruct s|]. intros Hin.
    destruct (Hclean _ Hin) as [Htrim _].
    apply trimmed_clean in Htrim as [_ Hend]. unfold ends_clean in Hend.
    rewrite rev_app_distr in Hend. simpl in Hend. by rewrite Hc in Hend.
Qed.

(** X2.  No entry of the allow-list in force contains a comma; so an
    origin that contains a comma is always refused. *)
Theorem allowedOrigins_no_comma env s :
  Forall (fun o => comma ∉ o) (allowedOrigins env)
  /\ (comma ∈ s ->
      fst (corsOrigin env (Some s)) = Failed "Not allowed by CORS").
Proof.
  pose proof (allowedOrigins_clean env) as Hclean.
  rewrite Forall_forall in Hclean. split.
  - apply Forall_forall. intros o Ho. by apply Hclean.
  - intros Hc. apply corsOrigin_rejects.
    + intros ->. by apply elem_of_nil in Hc.
    + intros Hin. by destruct (Hclean _ Hin) as [_ Hno].
Qed.

Lemma written_no_comma (p : padded) : well_padded p -> comma ∉ written p.
Proof.
  intros (Hb & Ha & _ & He). unfold written.
  rewrite !elem_of_app. intros [Hin|[Hin|Hin]]; [|done|].
  - exact (all_white_no_comma _ Hb Hin).
  - exact (all_white_no_comma _ Ha Hin).
Qed.

(** X3.  A setting written as entries joined by commas, each with any
    white space around it, gives back exactly the entries, in order. *)
Theorem allowedOrigins_written env (ps : list padded) :
  ps <> [] -> Forall well_padded ps ->
  join comma (map written ps) <> [] ->
  allowedOrigins (setting (join comma (map written ps)) env)
  = map entry ps.
Proof.
  intros Hps Hall Hne. rewrite allowedOrigins_setting by done.
  rewrite split_join.
  - rewrite map_map. apply map_ext_in. intros p Hp%list_elem_of_In.
    rewrite Forall_forall in Hall.
    destruct (Hall p Hp) as (Hb & Ha & He & _).
    by apply trim_written.
  - by destruct ps.
  - apply Forall_fmap. eapply Forall_impl; [exact Hall|].
    intros p Hp. by apply written_no_comma.
Qed.

(** X4.  Adding [,t] at the end of a non-empty setting adds the entries
    of [t] after those already there, so every origin accepted before is
    still accepted. *)
Theorem allowedOrigins_extended env (v t : ustring)
    (origin : option ustring) :
  v <> [] ->
  allowedOrigins (setting (v ++ comma :: t) env)
  = allowedOrigins (setting v env) ++ map trim (split comma t)
  /\ (fst (corsOrigin (setting v env) origin) = Allowed ->
      fst (corsOrigin (setting (v ++ comma :: t) env) origin) = Allowed).
Proof.
  intros Hv.
  assert (Hlist : allowedOrigins (setting (v ++ comma :: t) env)
                  = allowedOrigins (setting v env)
                    ++ map trim (split comma t)).
  { rewrite !allowedOrigins_setting by (by destruct v).
    by rewrite split_app, map_app. }
  split; [done|].
  destruct origin as [s|]; [|done].
  rewrite !corsOrigin_accepts, Hlist, elem_of_app. tauto.
Qed.

(** X5.  A setting that is not empty but holds only white space and
    commas gives an allow-list of empty entries: every non-empty origin
    is refused. *)
Theorem allowedOrigins_blank env (v : ustring) c s :
  v <> [] -> blank v = true ->
  Forall (fun o => o = []) (allowedOrigins (setting v env))
  /\ fst (corsOrigin (setting v env) (Some (c :: s)))
     = Failed "Not allowed by CORS".
Proof.
  intros Hv Hblank.
  assert (Hall : Forall (fun o => o = []) (allowedOrigins (setting v env))).
  { rewrite allowedOrigins_setting by done.
    apply Forall_fmap, Forall_forall. intros piece Hpiece. simpl.
    destruct (split_pieces _ _ _ Hpiece) as [Hsep Hsub].
    apply trim_all_white. unfold all_white. apply forallb_forall.
    intros x Hx%list_elem_of_In.
    unfold blank in Hblank. rewrite forallb_forall in Hblank.
    specialize (Hblank x (proj1 (list_elem_of_In _ _) (Hsub x Hx))).
    apply orb_true_iff in Hblank as [?|Heq]; [done|].
    apply N.eqb_eq in Heq. by subst. }
  split; [done|].
  apply corsOrigin_outside. intros Hin.
  rewrite Forall_forall in Hall. by specialize (Hall _ Hin).
Qed.

End OriginFacts.

(** ** The application *)

Section AppFacts.

Import Server App.
Local Open Scope string_scope.

Context {R E : Type}.

Implicit Types (c : collaborators R E) (req : request) (e : failure E)
  (p : progress E) (ls : list (layer R E)).

Lemma through_app c ls1 ls2 p :
  through c (ls1 ++ ls2) p
  = match through c ls1 p with
    | inl o => inl o
    | inr p' => through c ls2 p'
    end.
Proof.
  revert p. induction ls1 as [|l ls1 IH]; intros p; [done|]. simpl.
  destruct (enter c l p) as [o|p']; [done|]. apply IH.
Qed.

(** With an error pending, the layers from any point on leave it to the
    error handler. *)
Lemma failing_from c cfg env now_iso (k : nat) e req :
  (k <= 12)%nat ->
  finish (through c (drop k (layers cfg env now_iso c)) (Failing e req))
  = finish (after (errorHandler c e req) req).
Proof.
  intros Hk.
  do 13 (destruct k as [|k];
         [simpl; by destruct (errorHandler c e req)|]).
  lia.
Qed.

(** X6.  Once a layer mounted before the error handler has passed an
    error to [next], no route handler and not the 404 handler runs: the
    request ends with what [errorHandler] makes of that error. *)
Theorem error_reaches_errorHandler cfg env now_iso c req (k : nat) e req' :
  (k <= 12)%nat ->
  through c (take k (layers cfg env now_iso c)) (Normal req)
  = inr (Failing e req') ->
  app cfg env now_iso c req = finish (after (errorHandler c e req') req').
Proof.
  intros Hk Hraised. unfold app.
  rewrite <- (take_drop k (layers cfg env now_iso c)).
  rewrite through_app, Hraised. by apply failing_from.
Qed.

Lemma past_limiter_through cfg env now_iso c req req2 :
  past_limiter cfg c req req2 ->
  through c (take 2 (layers cfg env now_iso c)) (Normal req)
  = inr (Normal req2).
Proof.
  intros (req1 & Hsec & Hlim). simpl. rewrite Hsec. simpl.
  destruct (mounted c (mount_path cfg) req1).
  - by rewrite Hlim.
  - by subst.
Qed.

(** X7.  A request with a non-empty Origin outside the allow-list, once
    past the security middleware and the rate limiter, is handed to
    [errorHandler] with the error "Not allowed by CORS", whatever its
    method and path: it reaches neither the health check, nor the
    documentation, nor the API routes, nor the 404 handler. *)
Theorem rejected_origin_reaches_errorHandler cfg env now_iso c req req2
    (o : ustring) :
  past_limiter cfg c req req2 ->
  origin req2 = Some o -> o <> [] -> o ∉ allowedOrigins env ->
  app cfg env now_iso c req
  = finish (after (errorHandler c (Rejected "Not allowed by CORS") req2)
              req2).
Proof.
  intros Hpast Ho Hne Hout. unfold app.
  rewrite <- (take_drop 3 (layers cfg env now_iso c)).
  change (take 3 (layers cfg env now_iso c))
    with (take 2 (layers cfg env now_iso c) ++ [Use (corsLayer env c)])%list.
  rewrite !through_app, (past_limiter_through _ _ _ _ _ _ Hpast). simpl.
  unfold corsLayer. rewrite Ho.
  rewrite (corsOrigin_rejects env o Hne Hout). simpl.
  by destruct (errorHandler c (Rejected "Not allowed by CORS") req2).
Qed.

Lemma enter_with_limiter c (limiter : middleware R E) (l : layer R E) p :
  enter (with_limiter limiter c) l p = enter c l p.
Proof. by destruct p, l. Qed.

Lemma through_with_limiter c (limiter : middleware R E) ls p :
  through (with_limiter limiter c) ls p = through c ls p.
Proof.
  revert p. induction ls as [|l ls IH]; intros p; [done|]. simpl.
  rewrite enter_with_limiter. destruct (enter c l p); [done|]. apply IH.
Qed.

Lemma through_outside_limiter c (path : string)
    (limiter : middleware R E) ls req req1 :
  securityMiddleware c req = Continue req1 ->
  mounted c path req1 = false ->
  through c (Use (securityMiddleware c) :: UseAt path limiter :: ls)
    (Normal req)
  = through c ls (Normal req1).
Proof. intros Hsec Hout. simpl. rewrite Hsec. simpl. by rewrite Hout. Qed.

Lemma layers_with_limiter cfg env now_iso c (limiter : middleware R E) :
  layers cfg env now_iso (with_limiter limiter c)
  = Use (securityMiddleware c) :: UseAt (mount_path cfg) limiter
      :: drop 2 (layers cfg env now_iso c).
Proof. reflexivity. Qed.

Lemma layers_limiter cfg env now_iso c :
  layers cfg env now_iso c
  = Use (securityMiddleware c) :: UseAt (mount_path cfg) (apiRateLimit c)
      :: drop 2 (layers cfg env now_iso c).
Proof. reflexivity. Qed.

(** X8.  The rate limiter is mounted on the API prefix only and before
    every route: a request outside the prefix is handled the same
    whatever the limiter does, and a request under the prefix that the
    limiter answers gets that answer, the health check included. *)
Theorem rate_limit_scope cfg env now_iso c (limiter : middleware R E) req
    req1 :
  securityMiddleware c req = Continue req1 ->
  (mounted c (mount_path cfg) req1 = false ->
   app cfg env now_iso (with_limiter limiter c) req
   = app cfg env now_iso c req)
  /\ (forall r,
        mounted c (mount_path cfg) req1 = true ->
        apiRateLimit c req1 = Respond r ->
        app cfg env now_iso c req = Sent r).
Proof.
  intros Hsec. split.
  - intros Hout. unfold app.
    transitivity
      (finish (through c (drop 2 (layers cfg env now_iso c)) (Normal req1))).
    + rewrite through_with_limiter, layers_with_limiter.
      by rewrite (through_outside_limiter c _ _ _ req req1).
    + rewrite (layers_limiter cfg env now_iso c) at 2.
      by rewrite (through_outside_limiter c _ _ _ req req1).
  - intros r Hin Hlim. unfold app, layers. simpl.
    rewrite Hsec. simpl. by rewrite Hin, Hlim.
Qed.

Lemma layers_middlewares cfg env now_iso c :
  layers cfg env now_iso c
  = (middlewares cfg env c
    ++ [ Get (route_path cfg "/health") (healthCheck c);
         Get "/" (rootHandler cfg);
         Get (route_path cfg "/docs") (docsHandler cfg now_iso);
         UseAt (mount_path cfg) (user_routes c);
         Use (notFound cfg);
         UseError (errorHandler c) ])%list.
Proof. reflexivity. Qed.

(** X9.  A request that the seven middleware let pass, that none of the
    three GET routes of the file matches and that the API router does not
    answer gets the 404 response, made from the request as the middleware
    left it. *)
Theorem unmatched_request_gets_404 cfg env now_iso c req req1 req2 :
  through c (middlewares cfg env c) (Normal req) = inr (Normal req1) ->
  routed c (route_path cfg "/health") req1 = false ->
  routed c "/" req1 = false ->
  routed c (route_path cfg "/docs") req1 = false ->
  (if mounted c (mount_path cfg) req1
   then user_routes c req1 = Continue req2 else req2 = req1) ->
  app cfg env now_iso c req
  = Sent (NotFound (notFoundHandler cfg (meta req2))).
Proof.
  intros Hpass Hhealth Hroot Hdocs Huser. unfold app.
  rewrite layers_middlewares, through_app, Hpass. simpl.
  rewrite Hhealth. simpl. rewrite Hroot. simpl. rewrite Hdocs. simpl.
  destruct (mounted c (mount_path cfg) req1).
  - by rewrite Huser.
  - by subst.
Qed.

(** X10.  The three GET routes of the file are tried in the order health,
    root, documentation, before the API router: what the health check
    answers is sent; otherwise a request for the root is redirected to the
    documentation path; otherwise a request for the documentation gets the
    documentation object. *)
Theorem routes_in_order cfg env now_iso c req req1 :
  through c (middlewares cfg env c) (Normal req) = inr (Normal req1) ->
  (forall r,
      routed c (route_path cfg "/health") req1 = true ->
      healthCheck c req1 = Respond r ->
      app cfg env now_iso c req = Sent r)
  /\ (routed c (route_path cfg "/health") req1 = false ->
      routed c "/" req1 = true ->
      app cfg env now_iso c req = Sent (Redirect (route_path cfg "/docs")))
  /\ (routed c (route_path cfg "/health") req1 = false ->
      routed c "/" req1 = false ->
      routed c (route_path cfg "/docs") req1 = true ->
      app cfg env now_iso c req
      = Sent (Documentation
                [ debugRegister "route" (route_path cfg "/docs") ]
                (apiDocumentation cfg now_iso))).
Proof.
  intros Hpass. unfold app.
  rewrite layers_middlewares, through_app, Hpass.
  split; [|split].
  - intros r Hhealth Hanswer. simpl. by rewrite Hhealth, Hanswer.
  - intros Hhealth Hroot. simpl. rewrite Hhealth. simpl. by rewrite Hroot.
  - intros Hhealth Hroot Hdocs. simpl. rewrite Hhealth. simpl.
    rewrite Hroot. simpl. by rewrite Hdocs.
Qed.

(** Before the 404 handler and the error handler, whatever the layers
    in front do, the request is answered when the error handler answers. *)
Lemma answered_behind c cfg ls p :
  answering c ->
  exists r,
    finish (through c (ls ++ [Use (notFound cfg); UseError (errorHandler c)])
              p) = Sent r.
Proof.
  intros Hanswer. revert p.
  assert (Hafter : forall (s : signal R E) req,
    (exists r, after s req = inl (Sent r)) \/ exists p, after s req = inr p).
  { intros [r|req'|e] req; simpl; eauto. }
  induction ls as [|l ls IH]; intros p.
  - destruct p as [req|e req]; simpl; [eauto|].
    destruct (Hanswer e req) as [r ->]. simpl. eauto.
  - simpl.
    assert (Henter : (exists r, enter c l p = inl (Sent r))
                     \/ exists p', enter c l p = inr p').
    { destruct p as [req|e req], l as [mw|path mw|path h|h]; simpl;
        try (right; eauto; fail); try apply Hafter.
      - destruct (mounted c path req); [apply Hafter|eauto].
      - destruct (routed c path req); [apply Hafter|eauto]. }
    destruct Henter as [[r ->]|[p' ->]]; [simpl; eauto|]. apply IH.
Qed.

(** X12.  Provided the error handler always sends a response, every
    request is answered by the application: none falls through the layers
    to Express's default handler, with or without an error. *)
Theorem every_request_answered cfg env now_iso c req :
  answering c ->
  exists r, app cfg env now_iso c req = Sent r.
Proof.
  intros Hanswer. unfold app.
  change (layers cfg env now_iso c)
    with (take 11 (layers cfg env now_iso c)
          ++ [Use (notFound cfg); UseError (errorHandler c)])%list.
  by apply answered_behind.
Qed.

End AppFacts.

(** ** The documentation object and the 404 list *)

Section DocsFacts.

Import Server Docs.
Local Open Scope string_scope.

Lemma append_inj_r (p a b : string) : p +:+ a = p +:+ b -> a = b.
Proof. induction p as [|ch p IH]; simpl; [done|]. intros [= ?]. auto. Qed.

#[local] Instance route_path_inj cfg : Inj (=) (=) (route_path cfg).
Proof.
  intros a b Heq. unfold route_path in Heq.
  apply append_inj_r in Heq. by apply append_inj_r in Heq.
Qed.

#[local] Instance endpoint_url_inj cfg : Inj (=) (=) (endpoint_url cfg).
Proof.
  intros a b Heq. apply (route_path_inj cfg).
  by apply (append_inj_r (base_url cfg)).
Qed.

(** X11.  Whatever the configuration, the twelve paths the 404 handler
    lists are pairwise different, so are the URLs and the names of the
    documented endpoints, looking an endpoint up by its name gives its
    entry, and every documented URL is the base URL followed by a path of
    the 404 list. *)
Theorem documented_paths_distinct cfg now_iso req :
  NoDup (availableEndpoints (nf_body (notFoundHandler cfg req)))
  /\ NoDup (urls cfg now_iso)
  /\ NoDup (names cfg now_iso)
  /\ Forall (fun named =>
               prop (fst named) (endpoints (apiDocumentation cfg now_iso))
               = Some (snd named))
        (endpoints (apiDocumentation cfg now_iso))
  /\ Forall (fun u =>
               exists p,
                 p ∈ availableEndpoints (nf_body (notFoundHandler cfg req))
                 /\ u = base_url cfg +:+ p)
        (urls cfg now_iso).
Proof.
  split; [|split; [|split; [|split]]].
  - change (availableEndpoints (nf_body (notFoundHandler cfg req)))
      with (route_path cfg <$> listed_suffixes).
    apply (NoDup_fmap_2 (route_path cfg)).
    apply (bool_decide_unpack (NoDup listed_suffixes)). vm_compute. exact I.
  - change (urls cfg now_iso) with (endpoint_url cfg <$> documented_suffixes).
    apply (NoDup_fmap_2 (endpoint_url cfg)).
    apply (bool_decide_unpack (NoDup documented_suffixes)).
    vm_compute. exact I.
  - apply (bool_decide_unpack (NoDup (names cfg now_iso))).
    vm_compute. exact I.
  - unfold apiDocumentation; simpl. repeat constructor.
  - change (urls cfg now_iso) with (endpoint_url cfg <$> documented_suffixes).
    change (availableEndpoints (nf_body (notFoundHandler cfg req)))
      with (route_path cfg <$> listed_suffixes).
    apply Forall_fmap, Forall_forall. intros suffix Hin. cbv beta.
    exists (route_path cfg suffix). split; [|reflexivity].
    apply list_elem_of_fmap. exists suffix. split; [done|].
    revert Hin. unfold documented_suffixes, listed_suffixes.
    rewrite !elem_of_cons, !elem_of_nil. tauto.
Qed.

End DocsFacts.

(** ** The further properties at work on concrete inputs *)

Section MoreExamples.

Import Server App Origins Sample Contract.
Local Open Scope string_scope.

(** An origin with a space in front, and one with a space behind. *)
Lemma allowedOrigins_trimmed_witness :
  fst (corsOrigin ∅ (Some (32%N :: lit "http://localhost:3000")))
  = Failed "Not allowed by CORS"
  /\ fst (corsOrigin ∅ (Some (lit "http://localhost:3000" ++ [32%N])%list))
     = Failed "Not allowed by CORS".
Proof.
  destruct (allowedOrigins_trimmed ∅ 32%N (lit "http://localhost:3000"))
    as (_ & Hfront & Hback).
  split; [apply Hfront|apply Hback]; reflexivity.
Defined.

Lemma allowedOrigins_no_comma_witness :
  fst (corsOrigin ∅ (Some (lit "http://localhost:3000,http://localhost:3001")))
  = Failed "Not allowed by CORS".
Proof.
  apply (allowedOrigins_no_comma ∅).
  apply (bool_decide_unpack (comma ∈ _)). vm_compute. exact I.
Defined.

Lemma allowedOrigins_written_witness :
  allowedOrigins (setting (lit " https://a.example,  https://b.example ") ∅)
  = [ lit "https://a.example"; lit "https://b.example" ].
Proof.
  apply (allowedOrigins_written ∅ two_entries).
  - discriminate.
  - repeat constructor; try reflexivity;
      apply (bool_decide_eq_false_1 (comma ∈ _)); vm_compute; reflexivity.
  - vm_compute. discriminate.
Defined.

Lemma allowedOrigins_extended_witness :
  allowedOrigins
    (setting
       (lit "https://a.example" ++ comma :: lit " https://b.example")%list ∅)
  = (allowedOrigins (setting (lit "https://a.example") ∅)
     ++ map trim (split comma (lit " https://b.example")))%list
  /\ (fst (corsOrigin (setting (lit "https://a.example") ∅)
             (Some (lit "https://a.example"))) = Allowed ->
      fst (corsOrigin
             (setting (lit "https://a.example" ++ comma
                         :: lit " https://b.example")%list ∅)
             (Some (lit "https://a.example"))) = Allowed).
Proof.
  apply (allowedOrigins_extended ∅ (lit "https://a.example")
           (lit " https://b.example") (Some (lit "https://a.example"))).
  vm_compute. discriminate.
Defined.

Lemma allowedOrigins_blank_witness :
  Forall (fun o => o = []) (allowedOrigins (setting (lit " , ") ∅))
  /\ fst (corsOrigin (setting (lit " , ") ∅)
            (Some (104%N :: lit "ttp://localhost:3000")))
     = Failed "Not allowed by CORS".
Proof.
  apply (allowedOrigins_blank ∅ (lit " , ") 104%N
           (lit "ttp://localhost:3000")).
  - vm_compute. discriminate.
  - reflexivity.
Defined.

(** A login request whose body does not parse. *)
Lemma error_reaches_errorHandler_witness :
  app sample_config ∅ "2024-01-01T00:00:00.000Z" strict
    (get "/user/login" None)
  = Sent (Other "Unexpected token").
Proof.
  apply (error_reaches_errorHandler sample_config ∅
           "2024-01-01T00:00:00.000Z" strict (get "/user/login" None) 4
           (Thrown "Unexpected token") (get "/user/login" None)).
  - lia.
  - vm_compute. reflexivity.
Defined.

(** A health check from an origin that is not on the default list. *)
Lemma rejected_origin_reaches_errorHandler_witness :
  app sample_config ∅ "2024-01-01T00:00:00.000Z" plain
    (get "/user/health" (Some (lit "https://evil.example")))
  = Sent (Other "Not allowed by CORS").
Proof.
  apply (rejected_origin_reaches_errorHandler sample_config ∅
           "2024-01-01T00:00:00.000Z" plain
           (get "/user/health" (Some (lit "https://evil.example")))
           (get "/user/health" (Some (lit "https://evil.example")))
           (lit "https://evil.example")).
  - exists (get "/user/health" (Some (lit "https://evil.example"))).
    split; reflexivity.
  - reflexivity.
  - discriminate.
  - apply (bool_decide_eq_false_1 (_ ∈ _)). vm_compute. reflexivity.
Defined.

(** The root is outside the API prefix, the health check under it. *)
Lemma rate_limit_scope_witness :
  app sample_config ∅ "2024-01-01T00:00:00.000Z"
    (with_limiter limited plain) (get "/" None)
  = app sample_config ∅ "2024-01-01T00:00:00.000Z" plain (get "/" None)
  /\ app sample_config ∅ "2024-01-01T00:00:00.000Z"
       (with_limiter limited plain) (get "/user/health" None)
     = Sent (Other "Too many API requests, please try again later.").
Proof.
  split.
  - destruct (rate_limit_scope sample_config ∅ "2024-01-01T00:00:00.000Z"
                plain limited (get "/" None) (get "/" None) eq_refl)
      as [Houtside _].
    apply Houtside. reflexivity.
  - destruct (rate_limit_scope sample_config ∅ "2024-01-01T00:00:00.000Z"
                (with_limiter limited plain) limited
                (get "/user/health" None) (get "/user/health" None) eq_refl)
      as [_ Hunder].
    apply Hunder; reflexivity.
Defined.

Lemma unmatched_request_gets_404_witness :
  app sample_config ∅ "2024-01-01T00:00:00.000Z" plain
    (get "/user/nowhere" None)
  = Sent (NotFound
            (notFoundHandler sample_config
               (meta (tagged (get "/user/nowhere" None))))).
Proof.
  apply (unmatched_request_gets_404 sample_config ∅
           "2024-01-01T00:00:00.000Z" plain (get "/user/nowhere" None)
           (tagged (get "/user/nowhere" None))
           (tagged (get "/user/nowhere" None)));
    vm_compute; reflexivity.
Defined.

Lemma routes_in_order_witness :
  app sample_config ∅ "2024-01-01T00:00:00.000Z" plain (get "/" None)
  = Sent (Redirect (route_path sample_config "/docs")).
Proof.
  destruct (routes_in_order sample_config ∅ "2024-01-01T00:00:00.000Z"
              plain (get "/" None) (tagged (get "/" None)) eq_refl)
    as (_ & Hroot & _).
  apply Hroot; reflexivity.
Defined.

Lemma every_request_answered_witness :
  exists r,
    app sample_config ∅ "2024-01-01T00:00:00.000Z" strict
      (get "/user/login" None) = Sent r.
Proof.
  apply (every_request_answered sample_config ∅ "2024-01-01T00:00:00.000Z"
           strict (get "/user/login" None)).
  intros e req. eexists. reflexivity.
Defined.

End MoreExamples.
